(** * Verification of [sanitize_test_framework.py]

    The script is written to read one file as UTF-8 text, apply a table of
    literal substring replacements in the table's order, and write the text
    back to the same path.  This development embeds the text of the script,
    the part of Python's lexer that decides how its string literals are read,
    the replacement loop with [str.replace], the UTF-8 codec and the file
    operations, and proves what the script does.

    A Python [str] is a sequence of Unicode code points; it is modelled as a
    list of [N].  Bytes on disk are numbers below 256, also in [N]. *)

From Stdlib Require Import String Ascii.
From Stdlib Require Import List NArith Arith Bool Lia Permutation.
Import ListNotations.
Open Scope N_scope.
Open Scope list_scope.

(** ** Text *)

Definition char := N.
Definition text := list char.
Definition byte := N.

(** A literal made of printable ASCII characters.  The double quote, the
    backslash and U+FFFD are written by code point. *)
Definition py (s : string) : text :=
  map N_of_ascii (list_ascii_of_string s).

Definition dquote : char := 34.
Definition bslash : char := 92.
Definition newline : char := 10.
Definition U_FFFD : char := 65533.

(** [t.startswith(old)] *)
Fixpoint starts_with (old t : text) : bool :=
  match old, t with
  | [], _ => true
  | _ :: _, [] => false
  | x :: old', y :: t' => (x =? y) && starts_with old' t'
  end.

(** [old in t] *)
Fixpoint contains (old t : text) : bool :=
  starts_with old t ||
  match t with
  | [] => false
  | _ :: t' => contains old t'
  end.

(** [t.find(old)]: the lowest index at which [old] starts, [None] for -1. *)
Fixpoint find (old t : text) : option nat :=
  if starts_with old t then Some 0%nat
  else match t with
       | [] => None
       | _ :: t' => option_map S (find old t')
       end.

(** [sep.join(parts)] *)
Fixpoint join (sep : text) (parts : list text) : text :=
  match parts with
  | [] => []
  | [p] => p
  | p :: rest => p ++ sep ++ join sep rest
  end.

(** ** [str.replace]

    [t.replace(old, new)] scans [t] from the left.  Where [old] starts at the
    current position it emits [new] and jumps over the match, so that matches
    do not overlap; elsewhere it copies one character.  [skip] is the number
    of characters of the current match that are still to be jumped over. *)
Fixpoint replace_from (old new : text) (skip : nat) (t : text) : text :=
  match t with
  | [] => []
  | c :: rest =>
      match skip with
      | S k => replace_from old new k rest
      | O =>
          if starts_with old t
          then new ++ replace_from old new (length old - 1) rest
          else c :: replace_from old new 0 rest
      end
  end.

(** With an empty [old], Python inserts [new] before every character and at
    the end. *)
Definition replace_empty (new t : text) : text :=
  new ++ flat_map (fun c => c :: new) t.

Definition replace (old new t : text) : text :=
  match old with
  | [] => replace_empty new t
  | _ :: _ => replace_from old new 0 t
  end.

(** ** The replacement loop *)

(** [for old, new in replacements.items(): text = text.replace(old, new)] *)
Definition apply_replacements (m : list (text * text)) (t : text) : text :=
  fold_left (fun acc e => replace (fst e) (snd e) acc) m t.

(** ** Fragments that cannot overlap

    [agree x y]: [x] and [y] coincide as far as both reach.  [clash a b]: some
    text holds an occurrence of [a] and an occurrence of [b] that share a
    position ([b] starts inside [a], or [a] starts inside [b]).
    [bordered k]: two different occurrences of [k] can share a position. *)
Fixpoint agree (x y : text) : bool :=
  match x, y with
  | a :: x', b :: y' => (a =? b) && agree x' y'
  | _, _ => true
  end.

Definition clash (a b : text) : bool :=
  existsb (fun d => agree (skipn d a) b) (seq 0 (length a)) ||
  existsb (fun d => agree (skipn d b) a) (seq 1 (length b - 1)).

Definition bordered (k : text) : bool :=
  existsb (fun d => agree (skipn d k) k) (seq 1 (length k - 1)).

Definition entry_at (m : list (text * text)) (i : nat) : text * text :=
  nth i m ([], []).

(** The conditions on a table under which its entries do not interfere: no
    key is empty or bordered, no key can overlap a replacement text, and no
    two keys at different places can overlap. *)
Definition table_ok (m : list (text * text)) : bool :=
  forallb (fun e =>
    negb (length (fst e) =? 0)%nat &&
    negb (bordered (fst e)) &&
    forallb (fun e' => negb (clash (fst e) (snd e'))) m) m &&
  forallb (fun i =>
    forallb (fun j =>
      (i =? j)%nat || negb (clash (fst (entry_at m i)) (fst (entry_at m j))))
      (seq 0 (length m))) (seq 0 (length m)).

(** No occurrence of [old] in [x ++ y] lies across the cut. *)
Definition cut_free (old x y : text) : Prop :=
  forall l r, x ++ y = l ++ old ++ r ->
    (length l + length old <= length x)%nat \/ (length x <= length l)%nat.

(** The fragment of entry [i] as it stands once the first [done] entries
    have been applied: replaced if its turn has come, garbled otherwise. *)
Definition stage (m : list (text * text)) (done i : nat) : text :=
  if (i <? done)%nat then snd (entry_at m i) else fst (entry_at m i).

(** A text laid out as filler and fragments: a first filler, then fragments
    (given by their place in the table) each followed by filler.  [before]
    has the garbled fragments, [after] their readable counterparts. *)
Definition before (m : list (text * text)) (c0 : text)
    (rest : list (nat * text)) : text :=
  c0 ++ flat_map (fun p => fst (entry_at m (fst p)) ++ snd p) rest.

Definition after (m : list (text * text)) (c0 : text)
    (rest : list (nat * text)) : text :=
  c0 ++ flat_map (fun p => snd (entry_at m (fst p)) ++ snd p) rest.

Definition clean (m : list (text * text)) (c : text) : bool :=
  forallb (fun e => negb (contains (fst e) c)) m.

(** [c] is followed by the first occurrence of [old] in [c ++ old]. *)
Definition runs_to (old c : text) : Prop :=
  find old (c ++ old) = Some (length c).

(** Chunks each followed by [sep], then a last chunk. *)
Definition weave (sep : text) (chunks : list text) (last : text) : text :=
  flat_map (fun c => c ++ sep) chunks ++ last.

(** ** UTF-8

    The codec of [read_text] and [write_text] with [encoding='utf-8']: strict,
    it refuses surrogates, overlong forms and values above U+10FFFF. *)
Definition is_surrogate (c : char) : bool := (0xD800 <=? c) && (c <=? 0xDFFF).

Definition cont (x : N) : byte := N.lor 0x80 (N.land x 0x3F).

Definition utf8_encode_char (c : char) : option (list byte) :=
  if c <? 0x80 then Some [c]
  else if c <? 0x800 then
    Some [N.lor 0xC0 (N.shiftr c 6); cont c]
  else if c <? 0x10000 then
    if is_surrogate c then None
    else Some [N.lor 0xE0 (N.shiftr c 12); cont (N.shiftr c 6); cont c]
  else if c <? 0x110000 then
    Some [N.lor 0xF0 (N.shiftr c 18); cont (N.shiftr c 12);
          cont (N.shiftr c 6); cont c]
  else None.

Fixpoint utf8_encode (t : text) : option (list byte) :=
  match t with
  | [] => Some []
  | c :: t' =>
      match utf8_encode_char c, utf8_encode t' with
      | Some b, Some bs => Some (b ++ bs)
      | _, _ => None
      end
  end.

Definition is_cont (b : byte) : bool := N.land b 0xC0 =? 0x80.

(** The number of bytes announced by a lead byte, 0 for a byte that cannot
    start a character. *)
Definition utf8_width (b0 : byte) : nat :=
  if b0 <? 0x80 then 1
  else if b0 <? 0xC0 then 0
  else if b0 <? 0xE0 then 2
  else if b0 <? 0xF0 then 3
  else if b0 <? 0xF8 then 4
  else 0.

Definition decode2 (b0 b1 : byte) : option char :=
  if is_cont b1 then
    let c := N.lor (N.shiftl (N.land b0 0x1F) 6) (N.land b1 0x3F) in
    if c <? 0x80 then None else Some c
  else None.

Definition decode3 (b0 b1 b2 : byte) : option char :=
  if is_cont b1 && is_cont b2 then
    let c := N.lor (N.shiftl (N.land b0 0x0F) 12)
               (N.lor (N.shiftl (N.land b1 0x3F) 6) (N.land b2 0x3F)) in
    if (c <? 0x800) || is_surrogate c then None else Some c
  else None.

Definition decode4 (b0 b1 b2 b3 : byte) : option char :=
  if is_cont b1 && is_cont b2 && is_cont b3 then
    let c := N.lor (N.shiftl (N.land b0 0x07) 18)
               (N.lor (N.shiftl (N.land b1 0x3F) 12)
                  (N.lor (N.shiftl (N.land b2 0x3F) 6) (N.land b3 0x3F))) in
    if (c <? 0x10000) || (0x10FFFF <? c) then None else Some c
  else None.

Definition push (c : option char) (rest : option text) : option text :=
  match c, rest with
  | Some c, Some t => Some (c :: t)
  | _, _ => None
  end.

Fixpoint utf8_decode (bs : list byte) : option text :=
  match bs with
  | [] => Some []
  | b0 :: r0 =>
      match utf8_width b0 with
      | 1%nat => push (Some b0) (utf8_decode r0)
      | 2%nat =>
          match r0 with
          | b1 :: r1 => push (decode2 b0 b1) (utf8_decode r1)
          | _ => None
          end
      | 3%nat =>
          match r0 with
          | b1 :: b2 :: r2 => push (decode3 b0 b1 b2) (utf8_decode r2)
          | _ => None
          end
      | 4%nat =>
          match r0 with
          | b1 :: b2 :: b3 :: r3 => push (decode4 b0 b1 b2 b3) (utf8_decode r3)
          | _ => None
          end
      | _ => None
      end
  end.

(** A code point that UTF-8 can encode. *)
Definition scalar (c : char) : bool := (c <? 0x110000) && negb (is_surrogate c).

(** [f] holds at every number below [n]. *)
Definition all_below (f : N -> bool) (n : N) : bool :=
  N.peano_rect (fun _ => bool) true (fun i acc => f i && acc) n.

(** ** The text of the script

    The 33 lines of [sanitize_test_framework.py], character by character
    (the file is ASCII and has no final line break). *)
Definition source_lines : list text :=
  [ (*  1 *) py "from pathlib import Path"
  ; (*  2 *) py "path = Path('test/test-framework.mjs')"
  ; (*  3 *) py "text = path.read_text(encoding='utf-8')"
  ; (*  4 *) py "replacements = {"
  ; (*  5 *) py "    " ++ [dquote] ++ py "this.log('dY" ++ [bslash; bslash; dquote] ++ py ", Initializing test framework with universal browser service...');" ++ [dquote] ++ py ": " ++ [dquote] ++ py "this.log('[INFO] Initializing test framework with universal browser service...');" ++ [dquote] ++ py ","
  ; (*  6 *) py "    " ++ [dquote] ++ py "this.log('" ++ [bslash] ++ py "ufffdo. Test framework initialized successfully');" ++ [dquote] ++ py ": " ++ [dquote] ++ py "this.log('[OK] Test framework initialized successfully');" ++ [dquote] ++ py ","
  ; (*  7 *) py "    " ++ [dquote] ++ py "console.error('" ++ [bslash; bslash] ++ py "ufffdo Failed to initialize test framework:', error);" ++ [dquote] ++ py ": " ++ [dquote] ++ py "console.error('[ERROR] Failed to initialize test framework:', error);" ++ [dquote] ++ py ","
  ; (*  8 *) py "    " ++ [dquote] ++ py "this.log('dY" ++ [bslash; bslash; dquote] ++ py ", Cleaning up test framework...');" ++ [dquote] ++ py ": " ++ [dquote] ++ py "this.log('[INFO] Cleaning up test framework...');" ++ [dquote] ++ py ","
  ; (*  9 *) py "    " ++ [dquote] ++ py "this.log('" ++ [bslash] ++ py "ufffdo. Test framework cleanup completed');" ++ [dquote] ++ py ": " ++ [dquote] ++ py "this.log('[OK] Test framework cleanup completed');" ++ [dquote] ++ py ","
  ; (* 10 *) py "    " ++ [dquote] ++ py "this.log('dY" ++ [bslash; bslash; dquote] ++ py "? Checking authentication requirement...');" ++ [dquote] ++ py ": " ++ [dquote] ++ py "this.log('[INFO] Checking authentication requirement...');" ++ [dquote] ++ py ","
  ; (* 11 *) py "    " ++ [dquote] ++ py "console.error('" ++ [bslash; bslash] ++ py "ufffdo', error);" ++ [dquote] ++ py ": " ++ [dquote] ++ py "console.error('[ERROR]', error);" ++ [dquote] ++ py ","
  ; (* 12 *) py "    " ++ [dquote] ++ py "console.log('" ++ [bslash; bslash] ++ py "ufffdo. Authentication verified - tests can proceed');" ++ [dquote] ++ py ": " ++ [dquote] ++ py "console.log('[OK] Authentication verified - tests can proceed');" ++ [dquote] ++ py ","
  ; (* 13 *) py "    " ++ [dquote] ++ py "console.error('" ++ [bslash; bslash] ++ py "ufffdo Authentication error:', error.message);" ++ [dquote] ++ py ": " ++ [dquote] ++ py "console.error('[ERROR] Authentication error:', error.message);" ++ [dquote] ++ py ","
  ; (* 14 *) py "    " ++ [dquote] ++ py "console.log(`dY" ++ [bslash; bslash] ++ py "u0015" ++ [bslash] ++ py "u000e Running ${this.tests.length} tests with universal browser service...`);" ++ [dquote] ++ py ": " ++ [dquote] ++ py "console.log(`[INFO] Running ${this.tests.length} tests with universal browser service...`);" ++ [dquote] ++ py ","
  ; (* 15 *) py "    " ++ [dquote] ++ py "console.log(`" ++ [bslash; bslash] ++ py "ufffd-" ++ [bslash; bslash] ++ py "ufffd,?  SKIPPED: ${test.name}`);" ++ [dquote] ++ py ": " ++ [dquote] ++ py "console.log(`[SKIP] ${test.name}`);" ++ [dquote] ++ py ","
  ; (* 16 *) py "    " ++ [dquote] ++ py "console.log(`dY" ++ [bslash; bslash] ++ py "u0015" ++ [bslash] ++ py "u000e Running: ${test.name}`);" ++ [dquote] ++ py ": " ++ [dquote] ++ py "console.log(`[INFO] Running: ${test.name}`);" ++ [dquote] ++ py ","
  ; (* 17 *) py "    " ++ [dquote] ++ py "console.log(`" ++ [bslash; bslash] ++ py "ufffdo. PASS: ${test.name} - ${duration}ms`);" ++ [dquote] ++ py ": " ++ [dquote] ++ py "console.log(`[PASS] ${test.name} - ${duration}ms`);" ++ [dquote] ++ py ","
  ; (* 18 *) py "    " ++ [dquote] ++ py "console.log(`" ++ [bslash; bslash] ++ py "ufffdo. PASS: ${test.name} (expected to fail) - ${duration}ms`);" ++ [dquote] ++ py ": " ++ [dquote] ++ py "console.log(`[PASS] ${test.name} (expected to fail) - ${duration}ms`);" ++ [dquote] ++ py ","
  ; (* 19 *) py "    " ++ [dquote] ++ py "console.log(`" ++ [bslash; bslash] ++ py "ufffdo FAIL: ${test.name} (expected to fail but passed) - ${duration}ms`);" ++ [dquote] ++ py ": " ++ [dquote] ++ py "console.log(`[FAIL] ${test.name} (expected to fail but passed) - ${duration}ms`);" ++ [dquote] ++ py ","
  ; (* 20 *) py "    " ++ [dquote] ++ py "console.log(`" ++ [bslash; bslash] ++ py "ufffdo FAIL: ${test.name} - ${error.message} - ${duration}ms`);" ++ [dquote] ++ py ": " ++ [dquote] ++ py "console.log(`[FAIL] ${test.name} - ${error.message} - ${duration}ms`);" ++ [dquote] ++ py ","
  ; (* 21 *) py "    " ++ [dquote] ++ py "console.log('" ++ [bslash; bslash] ++ py "ufffdo CRITICAL ERROR: Tests were defined but none executed!');" ++ [dquote] ++ py ": " ++ [dquote] ++ py "console.log('[ERROR] CRITICAL ERROR: Tests were defined but none executed!');" ++ [dquote] ++ py ","
  ; (* 22 *) py "    " ++ [dquote] ++ py "console.log('" ++ [bslash; bslash] ++ py "ufffdo This indicates a fundamental problem (likely authentication failure)');" ++ [dquote] ++ py ": " ++ [dquote] ++ py "console.log('[ERROR] This indicates a fundamental problem (likely authentication failure)');" ++ [dquote] ++ py ","
  ; (* 23 *) py "    " ++ [dquote] ++ py "console.log('" ++ [bslash; bslash] ++ py "ndY" ++ [bslash; bslash; dquote] ++ py "S Test Results:');" ++ [dquote] ++ py ": " ++ [dquote] ++ py "console.log('" ++ [bslash; bslash] ++ py "n[SUMMARY] Test Results:');" ++ [dquote] ++ py ","
  ; (* 24 *) py "    " ++ [dquote] ++ py "console.log(`" ++ [bslash; bslash] ++ py "ufffdo. Passed: ${passed}`);" ++ [dquote] ++ py ": " ++ [dquote] ++ py "console.log(`[PASS] Passed: ${passed}`);" ++ [dquote] ++ py ","
  ; (* 25 *) py "    " ++ [dquote] ++ py "console.log(`" ++ [bslash; bslash] ++ py "ufffdo Failed: ${failed}`);" ++ [dquote] ++ py ": " ++ [dquote] ++ py "console.log(`[FAIL] Failed: ${failed}`);" ++ [dquote] ++ py ","
  ; (* 26 *) py "    " ++ [dquote] ++ py "console.log(`" ++ [bslash; bslash] ++ py "ufffd-" ++ [bslash; bslash] ++ py "ufffd,?  Skipped: ${skipped}`);" ++ [dquote] ++ py ": " ++ [dquote] ++ py "console.log(`[SKIP] Skipped: ${skipped}`);" ++ [dquote] ++ py ","
  ; (* 27 *) py "    " ++ [dquote] ++ py "console.log(`dY?" ++ [bslash; bslash] ++ py "u001d Executed: ${executed}/${this.tests.length}`);" ++ [dquote] ++ py ": " ++ [dquote] ++ py "console.log(`[INFO] Executed: ${executed}/${this.tests.length}`);" ++ [dquote] ++ py ","
  ; (* 28 *) py "    " ++ [dquote] ++ py "console.log(`" ++ [bslash; bslash] ++ py "ufffd?" ++ [bslash; bslash] ++ py "u0014,?  Duration: ${totalDuration}ms`);" ++ [dquote] ++ py ": " ++ [dquote] ++ py "console.log(`[TIME] Duration: ${totalDuration}ms`);" ++ [dquote] ++ py ","
  ; (* 29 *) py "    " ++ [dquote] ++ py "console.log(`dYZ_ Success: ${success ? 'YES' : 'NO'}`);" ++ [dquote] ++ py ": " ++ [dquote] ++ py "console.log(`[RESULT] Success: ${success ? 'YES' : 'NO'}`);" ++ [dquote]
  ; (* 30 *) py "}"
  ; (* 31 *) py "for old, new in replacements.items():"
  ; (* 32 *) py "    text = text.replace(old, new)"
  ; (* 33 *) py "path.write_text(text, encoding='utf-8')" ].

Definition source : text := join [newline] source_lines.

(** ** How Python reads the script

    Before it runs a module Python cuts its text into tokens.  What matters
    here is where string literals begin and end.  A literal opened by a quote
    runs to the next quote of the same kind; inside it a backslash takes the
    next character with it, so a doubled backslash is one backslash and the
    quote after it closes the literal.  A literal that has not been closed at
    the end of its line is a syntax error.

    The lexer below covers what the script uses: literals in single or
    double quotes, the escapes of one letter, [\uXXXX], a backslash at the
    end of a line, comments.  Triple quotes, prefixed literals and the
    escapes [\x], [\N], [\U] and octal are reported as outside the model.
    Every other character that is not blank is a token of its own. *)
Inductive token : Type :=
| TString (s : text)
| TChar (c : char).

Inductive lexed : Type :=
| Tokens (ts : list token)
| SyntaxErr (line : nat)
| Unmodelled (line : nat).

Inductive mode : Type :=
| Code (after_name : bool)
| Comment
| Str (q : char) (acc : text)
| Esc (q : char) (acc : text)
| Hex (q : char) (acc : text) (digits : nat) (v : N).

Definition is_quote (c : char) : bool := (c =? 34) || (c =? 39).

Definition is_blank (c : char) : bool :=
  (c =? 32) || (c =? 9) || (c =? 12) || (c =? 13).

(** A character that can be part of a name: a string prefix would be one. *)
Definition is_name_char (c : char) : bool :=
  ((48 <=? c) && (c <=? 57)) || ((65 <=? c) && (c <=? 90)) ||
  ((97 <=? c) && (c <=? 122)) || (c =? 95) || (128 <=? c).

Definition hex_val (c : char) : option N :=
  if (48 <=? c) && (c <=? 57) then Some (c - 48)
  else if (97 <=? c) && (c <=? 102) then Some (c - 87)
  else if (65 <=? c) && (c <=? 70) then Some (c - 55)
  else None.

(** The character an escape of one letter stands for. *)
Definition simple_escape (c : char) : option char :=
  if c =? 92 then Some 92          (* backslash *)
  else if c =? 39 then Some 39     (* single quote *)
  else if c =? 34 then Some 34     (* double quote *)
  else if c =? 97 then Some 7      (* a: bell *)
  else if c =? 98 then Some 8      (* b: backspace *)
  else if c =? 102 then Some 12    (* f: form feed *)
  else if c =? 110 then Some 10    (* n: line feed *)
  else if c =? 114 then Some 13    (* r: carriage return *)
  else if c =? 116 then Some 9     (* t: tab *)
  else if c =? 118 then Some 11    (* v: vertical tab *)
  else None.

(** Escapes the model leaves out: [\x], [\N], [\U] and the octal ones. *)
Definition unmodelled_escape (c : char) : bool :=
  (c =? 120) || (c =? 78) || (c =? 85) || ((48 <=? c) && (c <=? 55)).

Definition emit (t : token) (r : lexed) : lexed :=
  match r with
  | Tokens ts => Tokens (t :: ts)
  | other => other
  end.

(** [acc] holds the characters of the current literal, last one first. *)
Fixpoint lex (md : mode) (line : nat) (s : text) : lexed :=
  match s with
  | [] =>
      match md with
      | Code _ | Comment => Tokens []
      | _ => SyntaxErr line
      end
  | c :: rest =>
      match md with
      | Code after_name =>
          if is_quote c then
            if after_name then Unmodelled line
            else
              match rest with
              | c1 :: c2 :: _ =>
                  if (c1 =? c) && (c2 =? c) then Unmodelled line
                  else lex (Str c []) line rest
              | _ => lex (Str c []) line rest
              end
          else if c =? newline then lex (Code false) (S line) rest
          else if is_blank c then lex (Code false) line rest
          else if c =? 35 then lex Comment line rest
          else emit (TChar c) (lex (Code (is_name_char c)) line rest)
      | Comment =>
          if c =? newline then lex (Code false) (S line) rest
          else lex Comment line rest
      | Str q acc =>
          if c =? q then emit (TString (rev acc)) (lex (Code false) line rest)
          else if c =? bslash then lex (Esc q acc) line rest
          else if c =? newline then SyntaxErr line
          else lex (Str q (c :: acc)) line rest
      | Esc q acc =>
          if c =? newline then lex (Str q acc) (S line) rest
          else if c =? 117 then lex (Hex q acc 4 0) line rest
          else
            match simple_escape c with
            | Some d => lex (Str q (d :: acc)) line rest
            | None =>
                if unmodelled_escape c then Unmodelled line
                else lex (Str q (c :: bslash :: acc)) line rest
            end
      | Hex q acc digits v =>
          match hex_val c, digits with
          | Some h, 1%nat => lex (Str q (16 * v + h :: acc)) line rest
          | Some h, S k => lex (Hex q acc k (16 * v + h)) line rest
          | _, _ => SyntaxErr line
          end
      end
  end.

Definition tokenize (src : text) : lexed := lex (Code false) 1 src.

(** ** The dict display

    [d[k] = v] on a dict that keeps insertion order: a key already there
    keeps its place and takes the new value. *)
Fixpoint text_eqb (a b : text) : bool :=
  match a, b with
  | [], [] => true
  | x :: a', y :: b' => (x =? y) && text_eqb a' b'
  | _, _ => false
  end.

Fixpoint dict_set (k v : text) (m : list (text * text)) : list (text * text) :=
  match m with
  | [] => [(k, v)]
  | (k', v') :: m' =>
      if text_eqb k k' then (k, v) :: m' else (k', v') :: dict_set k v m'
  end.

(** The entries [key: value,] up to the closing brace. *)
Fixpoint parse_entries (ts : list token) (acc : list (text * text))
    : option (list (text * text)) :=
  match ts with
  | TChar c :: _ => if c =? 125 then Some acc else None
  | TString k :: TChar c1 :: TString v :: rest =>
      if c1 =? 58 then
        match rest with
        | TChar c2 :: rest' =>
            if c2 =? 44 then parse_entries rest' (dict_set k v acc)
            else if c2 =? 125 then Some (dict_set k v acc)
            else None
        | _ => None
        end
      else None
  | _ => None
  end.

(** The tokens after the first opening brace. *)
Fixpoint after_brace (ts : list token) : option (list token) :=
  match ts with
  | [] => None
  | TChar c :: rest => if c =? 123 then Some rest else after_brace rest
  | TString _ :: rest => after_brace rest
  end.

(** What compiling the module gives: the table of the dict display when
    the text is cut into tokens without error, a syntax error with its
    line otherwise. *)
Inductive compiled : Type :=
| Table (m : list (text * text))
| SyntaxError_at (line : nat)
| Outside_model.

Definition compile (src : text) : compiled :=
  match tokenize src with
  | Tokens ts =>
      match after_brace ts with
      | Some rest =>
          match parse_entries rest [] with
          | Some m => Table m
          | None => Outside_model
          end
      | None => Outside_model
      end
  | SyntaxErr line => SyntaxError_at line
  | Unmodelled _ => Outside_model
  end.

(** [replacements = { ... }] *)
Definition replacements : compiled := compile source.

(** ** Files

    What the script can observe of the file system: for each path, whether a
    file is there, its bytes and whether the process may read and write it;
    whether the directory that holds the path exists and may be written; and
    the room left on the device. *)
Inductive error : Set :=
| SyntaxError
| FileNotFoundError
| PermissionError
| UnicodeDecodeError
| UnicodeEncodeError
| OSError.

Inductive result (A : Type) : Type :=
| Ok (a : A)
| Raise (e : error).
Arguments Ok {A} a.
Arguments Raise {A} e.

Record file : Type := mkfile
  { content : list byte; readable : bool; writable : bool }.

Record filesystem : Type := mkfs
  { file_at : string -> option file;
    parent_at : string -> option bool;
    room : N }.

Definition store (fs : filesystem) (p : string) (f : file) (free : N)
    : filesystem :=
  mkfs (fun q => if String.eqb q p then Some f else file_at fs q)
       (parent_at fs) free.

(** Text mode with the default [newline=None]: on input, [\r\n] and a lone
    [\r] become [\n]; on output, [\n] becomes [os.linesep]. *)
Fixpoint universal_newlines (t : text) : text :=
  match t with
  | [] => []
  | c :: rest =>
      if c =? 13 then
        newline :: match rest with
                   | [] => []
                   | d :: rest' =>
                       if d =? 10 then universal_newlines rest'
                       else universal_newlines rest
                   end
      else c :: universal_newlines rest
  end.

Definition write_newlines (linesep t : text) : text :=
  flat_map (fun c => if c =? newline then linesep else [c]) t.

(** [path.read_text(encoding='utf-8')] *)
Definition read_text (fs : filesystem) (p : string) : result text :=
  match file_at fs p with
  | None => Raise FileNotFoundError
  | Some f =>
      if readable f then
        match utf8_decode (content f) with
        | Some t => Ok (universal_newlines t)
        | None => Raise UnicodeDecodeError
        end
      else Raise PermissionError
  end.

(** [path.write_text(data, encoding='utf-8')]: opening for writing empties
    the file, or creates it when its directory exists and may be written;
    the data are then encoded and written.  A failed encoding leaves the
    opened file empty; when the device has not enough room the write stops
    with the bytes that fit. *)
Definition write_text (linesep : text) (fs : filesystem) (p : string)
    (data : text) : result unit * filesystem :=
  let opened :=
    match file_at fs p with
    | Some f => if writable f then Ok f else Raise PermissionError
    | None =>
        match parent_at fs p with
        | None => Raise FileNotFoundError
        | Some false => Raise PermissionError
        | Some true => Ok (mkfile [] true true)
        end
    end in
  match opened with
  | Raise e => (Raise e, fs)
  | Ok f =>
      let free := room fs + N.of_nat (length (content f)) in
      let put bs rest :=
        store fs p (mkfile bs (readable f) (writable f)) rest in
      match utf8_encode (write_newlines linesep data) with
      | None => (Raise UnicodeEncodeError, put [] free)
      | Some bs =>
          if N.of_nat (length bs) <=? free
          then (Ok tt, put bs (free - N.of_nat (length bs)))
          else (Raise OSError, put (firstn (N.to_nat free) bs) 0)
      end
  end.

(** ** The script *)

Definition path : string := "test/test-framework.mjs".

(** Lines 2-3 and 31-33 with a table [m]: read, apply every entry, write
    back.  An exception of the read ends the run before the write. *)
Definition run_table (m : list (text * text)) (linesep : text)
    (fs : filesystem) : result unit * filesystem :=
  match read_text fs path with
  | Raise e => (Raise e, fs)
  | Ok text0 => write_text linesep fs path (apply_replacements m text0)
  end.

(** Running the file: Python compiles the whole module first, and a syntax
    error ends the run before the first statement.  [None] stands for a
    text whose syntax the lexer above does not cover. *)
Definition run (c : compiled) (linesep : text) (fs : filesystem)
    : option (result unit * filesystem) :=
  match c with
  | Table m => Some (run_table m linesep fs)
  | SyntaxError_at _ => Some (Raise SyntaxError, fs)
  | Outside_model => None
  end.

Definition main (linesep : text) (fs : filesystem)
    : option (result unit * filesystem) :=
  run replacements linesep fs.

(** A file system that holds the target file with bytes [bs], in an
    existing directory, and nothing else. *)
Definition only_target (bs : list byte) : filesystem :=
  mkfs (fun q => if String.eqb q path then Some (mkfile bs true true)
                 else None)
       (fun _ => Some true) 1000000.

(** A file system without the target file. *)
Definition no_target : filesystem :=
  mkfs (fun _ => None) (fun _ => Some true) 1000000.

(** Bytes of files the script is meant to repair.  The first is the
    fragment of source line 6 (with U+FFFD in UTF-8); the next two are the
    line of Scenario 1, with a double quote after [dY] and with a backslash
    and a double quote. *)
Definition garbled_ok_line : list byte :=
  py "this.log('" ++ [0xEF; 0xBF; 0xBD] ++
  py "o. Test framework initialized successfully');".

Definition scenario_1_line : list byte :=
  py "this.log('dY" ++ [dquote] ++
  py ", Initializing test framework with universal browser service...');".

Definition scenario_1_line_backslash : list byte :=
  py "this.log('dY" ++ [bslash; dquote] ++
  py ", Initializing test framework with universal browser service...');".

(** The entries of source lines 6 and 9, two of the lines that Python can
    read: the keys hold U+FFFD. *)
Definition sample_table : list (text * text) :=
  [ (py "this.log('" ++ [U_FFFD] ++
       py "o. Test framework initialized successfully');",
     py "this.log('[OK] Test framework initialized successfully');")
  ; (py "this.log('" ++ [U_FFFD] ++
       py "o. Test framework cleanup completed');",
     py "this.log('[OK] Test framework cleanup completed');") ].

(** * Proofs *)

(** ** Lists that share a prefix *)

Lemma app_eq_len {A : Type} (l1 l2 x y : list A) :
  l1 ++ x = l2 ++ y -> (length l1 <= length l2)%nat ->
  exists mid, l2 = l1 ++ mid /\ x = mid ++ y.
Proof.
  revert l2. induction l1 as [|a l1 IH]; intros l2 E L.
  - exists l2. split; [reflexivity | exact E].
  - destruct l2 as [|b l2]; [simpl in L; lia|].
    simpl in E. injection E as -> E. simpl in L.
    destruct (IH l2 E ltac:(lia)) as [mid [-> ->]].
    exists mid. split; reflexivity.
Qed.

(** ** [starts_with], [contains], [find] *)

Lemma starts_with_app (k r : text) : starts_with k (k ++ r) = true.
Proof.
  induction k as [|c k IH]; [reflexivity|].
  simpl. rewrite N.eqb_refl. exact IH.
Qed.

Lemma starts_with_inv (k t : text) :
  starts_with k t = true -> exists r, t = k ++ r.
Proof.
  revert t. induction k as [|c k IH]; intros t H.
  - exists t. reflexivity.
  - destruct t as [|d t]; [discriminate|].
    simpl in H. apply andb_true_iff in H as [Hc Hk].
    apply N.eqb_eq in Hc. subst d.
    destruct (IH t Hk) as [r ->]. exists r. reflexivity.
Qed.

Lemma starts_with_shorten (k x y : text) :
  starts_with k (x ++ y) = true -> (length k <= length x)%nat ->
  starts_with k x = true.
Proof.
  intros H L. apply starts_with_inv in H as [r E].
  symmetry in E.
  destruct (app_eq_len k x r y E L) as [mid [-> _]].
  apply starts_with_app.
Qed.

Lemma starts_with_extend (k x y : text) :
  starts_with k x = true -> starts_with k (x ++ y) = true.
Proof.
  intros H. apply starts_with_inv in H as [r ->].
  rewrite <- app_assoc. apply starts_with_app.
Qed.

Lemma contains_here (k t : text) :
  starts_with k t = true -> contains k t = true.
Proof. destruct t; simpl; intros ->; reflexivity. Qed.

Lemma contains_intro (k l r : text) : contains k (l ++ k ++ r) = true.
Proof.
  induction l as [|c l IH].
  - simpl. apply contains_here. apply starts_with_app.
  - change (starts_with k (c :: l ++ k ++ r) || contains k (l ++ k ++ r) = true).
    rewrite IH. apply orb_true_r.
Qed.

Lemma contains_inv (k t : text) :
  contains k t = true -> exists l r, t = l ++ k ++ r.
Proof.
  induction t as [|c t IH]; intros H.
  - simpl in H. rewrite orb_false_r in H.
    apply starts_with_inv in H as [r E]. exists [], r. exact E.
  - simpl in H. apply orb_true_iff in H as [H | H].
    + apply starts_with_inv in H as [r E]. exists [], r. exact E.
    + destruct (IH H) as [l [r ->]]. exists (c :: l), r. reflexivity.
Qed.

(** [find] returns the first place, and [None] exactly when there is none. *)
Lemma find_none (k t : text) : find k t = None -> contains k t = false.
Proof.
  induction t as [|c t IH]; simpl.
  - destruct (starts_with k []); [discriminate | reflexivity].
  - destruct (starts_with k (c :: t)); [discriminate|].
    destruct (find k t); [discriminate|]. intros _. simpl. apply IH. reflexivity.
Qed.

Lemma find_some (k t : text) (p : nat) :
  find k t = Some p ->
  exists c y, t = c ++ k ++ y /\ length c = p /\
    forall l r, t = l ++ k ++ r -> (p <= length l)%nat.
Proof.
  revert p. induction t as [|d t IH]; intros p.
  - simpl. destruct (starts_with k []) eqn:S; [|discriminate].
    intros [= <-]. apply starts_with_inv in S as [y E].
    exists [], y. repeat split; [exact E | intros; lia].
  - simpl. destruct (starts_with k (d :: t)) eqn:S.
    + intros [= <-]. apply starts_with_inv in S as [y E].
      exists [], y. repeat split; [exact E | intros; lia].
    + destruct (find k t) as [q|] eqn:F; [|discriminate].
      intros [= <-]. destruct (IH q eq_refl) as [c [y [E [L M]]]].
      exists (d :: c), y. repeat split.
      * rewrite E. reflexivity.
      * simpl. rewrite L. reflexivity.
      * intros l r E'. destruct l as [|d' l].
        -- simpl in E'. rewrite E' in S. rewrite starts_with_app in S.
           discriminate.
        -- simpl in E'. injection E' as _ E'. simpl.
           specialize (M l r E'). lia.
Qed.

Lemma find_first (k c y : text) :
  (forall l r, c ++ k ++ y = l ++ k ++ r -> (length c <= length l)%nat) ->
  find k (c ++ k ++ y) = Some (length c).
Proof.
  intros M. destruct (find k (c ++ k ++ y)) as [p|] eqn:F.
  - destruct (find_some _ _ _ F) as [c' [y' [E [L M']]]].
    specialize (M c' y' E). specialize (M' c y eq_refl). f_equal. lia.
  - apply find_none in F. rewrite contains_intro in F. discriminate.
Qed.

(** ** Overlapping occurrences

    Two occurrences in one text are given by two ways of cutting the text,
    [l1 ++ a ++ r1] and [l2 ++ b ++ r2].  They share a position when each
    starts before the other ends. *)

Lemma agree_app (x y r1 r2 : text) : x ++ r1 = y ++ r2 -> agree x y = true.
Proof.
  revert y. induction x as [|a x IH]; intros y E; [reflexivity|].
  destruct y as [|b y]; [reflexivity|].
  simpl in E. injection E as -> E. simpl.
  rewrite N.eqb_refl. exact (IH y E).
Qed.

Lemma agree_shift (a b l1 r1 l2 r2 : text) :
  l1 ++ a ++ r1 = l2 ++ b ++ r2 ->
  (length l1 <= length l2)%nat ->
  agree (skipn (length l2 - length l1) a) b = true.
Proof.
  intros E L.
  destruct (app_eq_len _ _ _ _ E L) as [mid [-> E']].
  rewrite length_app.
  replace (length l1 + length mid - length l1)%nat with (length mid) by lia.
  destruct (Nat.le_gt_cases (length mid) (length a)) as [Hm | Hm].
  - destruct (app_eq_len mid a (b ++ r2) r1 (eq_sym E') Hm) as [a' [-> E'']].
    rewrite skipn_app, skipn_all, Nat.sub_diag. simpl.
    apply (agree_app a' b r1 r2). symmetry. exact E''.
  - rewrite skipn_all2 by lia. reflexivity.
Qed.

Lemma existsb_at (f : nat -> bool) (lo n d : nat) :
  (lo <= d < lo + n)%nat -> f d = true -> existsb f (seq lo n) = true.
Proof.
  intros R H. apply existsb_exists. exists d. split; [|exact H].
  apply in_seq. exact R.
Qed.

Lemma clash_sound (a b l1 r1 l2 r2 : text) :
  l1 ++ a ++ r1 = l2 ++ b ++ r2 ->
  (length l1 < length l2 + length b)%nat ->
  (length l2 < length l1 + length a)%nat ->
  clash a b = true.
Proof.
  intros E H1 H2. unfold clash. apply orb_true_iff.
  destruct (Nat.le_gt_cases (length l1) (length l2)) as [L | L].
  - left. apply existsb_at with (d := (length l2 - length l1)%nat); [lia|].
    exact (agree_shift a b l1 r1 l2 r2 E L).
  - right. apply existsb_at with (d := (length l1 - length l2)%nat); [lia|].
    apply (agree_shift b a l2 r2 l1 r1); [symmetry; exact E | lia].
Qed.

Lemma bordered_sound (k l1 r1 l2 r2 : text) :
  l1 ++ k ++ r1 = l2 ++ k ++ r2 ->
  (length l1 < length l2)%nat ->
  (length l2 < length l1 + length k)%nat ->
  bordered k = true.
Proof.
  intros E H1 H2. unfold bordered.
  apply existsb_at with (d := (length l2 - length l1)%nat); [lia|].
  apply (agree_shift k k l1 r1 l2 r2 E). lia.
Qed.

(** A key that occurs inside a text clashes with it. *)
Lemma clash_inside (k e : text) :
  k <> [] -> contains k e = true -> clash k e = true.
Proof.
  intros Hk H. apply contains_inv in H as [l [r E]].
  apply (clash_sound k e l r [] []).
  - rewrite app_nil_r. simpl. symmetry. exact E.
  - simpl. rewrite E, !length_app.
    destruct k; [congruence | simpl; lia].
  - simpl. destruct k; [congruence | simpl; lia].
Qed.

(** ** [replace] *)

Section Replace.

Variables old new : text.
Hypothesis old_not_empty : old <> [].

Lemma replace_scan (t : text) : replace old new t = replace_from old new 0 t.
Proof. unfold replace. destruct old; [congruence | reflexivity]. Qed.

Lemma replace_from_skip (x y : text) :
  replace_from old new (length x) (x ++ y) = replace_from old new 0 y.
Proof.
  induction x as [|c x IH]; [reflexivity | exact IH].
Qed.

Lemma cut_free_tail (c : char) (x y : text) :
  cut_free old (c :: x) y -> cut_free old x y.
Proof.
  intros H l r E. specialize (H (c :: l) r). simpl in H.
  rewrite E in H. specialize (H eq_refl). lia.
Qed.

Lemma replace_from_app (x y : text) (s : nat) :
  (s <= length x)%nat -> cut_free old x y ->
  replace_from old new s (x ++ y) =
  replace_from old new s x ++ replace_from old new 0 y.
Proof.
  revert s. induction x as [|c x IH]; intros s Hs Hcut.
  - simpl in Hs. replace s with 0%nat by lia. reflexivity.
  - destruct s as [|s].
    + change (replace_from old new 0 ((c :: x) ++ y)) with
        (if starts_with old (c :: x ++ y)
         then new ++ replace_from old new (length old - 1) (x ++ y)
         else c :: replace_from old new 0 (x ++ y)).
      change (replace_from old new 0 (c :: x)) with
        (if starts_with old (c :: x)
         then new ++ replace_from old new (length old - 1) x
         else c :: replace_from old new 0 x).
      destruct (starts_with old (c :: x ++ y)) eqn:S.
      * assert (L : (length old <= length (c :: x))%nat).
        { apply starts_with_inv in S as [r E].
          destruct (Hcut [] r E) as [L | L]; simpl in L; [exact L | lia]. }
        rewrite (starts_with_shorten old (c :: x) y S L).
        rewrite IH; [ | simpl in L; lia | exact (cut_free_tail _ _ _ Hcut)].
        rewrite app_assoc. reflexivity.
      * destruct (starts_with old (c :: x)) eqn:S'.
        -- apply (starts_with_extend old (c :: x) y) in S'.
           simpl in S'. rewrite S' in S. discriminate.
        -- rewrite IH; [reflexivity | lia | exact (cut_free_tail _ _ _ Hcut)].
    + simpl. apply IH; [simpl in Hs; lia | exact (cut_free_tail _ _ _ Hcut)].
Qed.

(** A text without [old] is returned as it is. *)
Lemma replace_from_absent (t : text) :
  contains old t = false -> replace_from old new 0 t = t.
Proof.
  induction t as [|c t IH]; intros H; [reflexivity|].
  simpl in H. apply orb_false_iff in H as [H1 H2].
  change (replace_from old new 0 (c :: t)) with
    (if starts_with old (c :: t)
     then new ++ replace_from old new (length old - 1) t
     else c :: replace_from old new 0 t).
  simpl. rewrite H1. rewrite (IH H2). reflexivity.
Qed.

Lemma replace_absent (t : text) :
  contains old t = false -> replace old new t = t.
Proof. rewrite replace_scan. apply replace_from_absent. Qed.

(** A match at the head is replaced, and the scan goes on behind it. *)
Lemma replace_hit (y : text) :
  replace old new (old ++ y) = new ++ replace old new y.
Proof.
  rewrite !replace_scan. destruct old as [|c k] eqn:E; [congruence|].
  change (replace_from (c :: k) new 0 ((c :: k) ++ y)) with
    (if starts_with (c :: k) ((c :: k) ++ y)
     then new ++ replace_from (c :: k) new (length (c :: k) - 1) (k ++ y)
     else c :: replace_from (c :: k) new 0 (k ++ y)).
  rewrite starts_with_app. f_equal.
  replace (length (c :: k) - 1)%nat with (length k) by (simpl; lia).
  rewrite <- E. apply replace_from_skip.
Qed.

Lemma replace_app (x y : text) :
  cut_free old x y -> replace old new (x ++ y) = replace old new x ++ replace old new y.
Proof.
  intros H. rewrite !replace_scan. apply replace_from_app; [lia | exact H].
Qed.

(** The first occurrence of [old] is replaced and what is before it is kept. *)
Lemma replace_first (c y : text) :
  find old (c ++ old ++ y) = Some (length c) ->
  replace old new (c ++ old ++ y) = c ++ new ++ replace old new y.
Proof.
  intros F. destruct (find_some _ _ _ F) as [c' [y' [E [L M]]]].
  rewrite replace_app.
  - rewrite replace_hit. f_equal. apply replace_absent.
    destruct (contains old c) eqn:C; [|reflexivity].
    apply contains_inv in C as [l [r ->]].
    specialize (M l (r ++ old ++ y)).
    rewrite <- !app_assoc in M. specialize (M eq_refl).
    rewrite !length_app in M. destruct old; [congruence | simpl in M; lia].
  - intros l r E'. right. exact (M l r E').
Qed.

(** An [old] standing where no other occurrence can reach it. *)
Lemma replace_own (l r : text) :
  bordered old = false ->
  replace old new (l ++ old ++ r) =
  replace old new l ++ new ++ replace old new r.
Proof.
  intros B. rewrite replace_app.
  - rewrite replace_hit. reflexivity.
  - intros l0 r0 E.
    destruct (Nat.le_gt_cases (length l) (length l0)) as [H | H];
      [right; exact H | left].
    destruct (Nat.le_gt_cases (length l0 + length old) (length l)) as [H' | H'];
      [exact H' | exfalso].
    rewrite (bordered_sound old l0 r0 l r) in B;
      [discriminate | symmetry; exact E | exact H | exact H'].
Qed.

(** A text [e] that no occurrence of [old] can touch is a barrier: the scan
    treats both sides separately and copies [e]. *)
Lemma replace_barrier (e l r : text) :
  clash old e = false ->
  replace old new (l ++ e ++ r) = replace old new l ++ e ++ replace old new r.
Proof.
  intros C.
  assert (Hlen : (0 < length old)%nat).
  { destruct old; [congruence | simpl; lia]. }
  rewrite replace_app.
  - rewrite replace_app.
    + rewrite (replace_absent e); [reflexivity|].
      destruct (contains old e) eqn:In; [|reflexivity].
      rewrite (clash_inside old e old_not_empty In) in C. discriminate.
    + intros l0 r0 E.
      destruct (Nat.le_gt_cases (length e) (length l0)) as [H | H];
        [right; exact H | exfalso].
      rewrite (clash_sound old e l0 r0 [] r) in C;
        [discriminate | symmetry; exact E | simpl; lia | simpl; lia].
  - intros l0 r0 E.
    destruct (Nat.le_gt_cases (length l) (length l0)) as [H | H];
      [right; exact H | left].
    destruct (Nat.le_gt_cases (length l0 + length old) (length l)) as [H' | H'];
      [exact H' | exfalso].
    rewrite (clash_sound old e l0 r0 l r) in C;
      [discriminate | symmetry; exact E | lia | lia].
Qed.

End Replace.

Section ReplaceAll.

Variables old new : text.
Hypothesis old_not_empty : old <> [].

Lemma replace_absent_any (k n t : text) :
  contains k t = false -> replace k n t = t.
Proof.
  destruct k as [|c k].
  - destruct t; discriminate.
  - apply replace_absent. discriminate.
Qed.

(** An occurrence of [a] in [x ++ y] that ends inside [x], or starts inside
    [y], is an occurrence in that part. *)
Lemma contains_left (a x y l r : text) :
  x ++ y = l ++ a ++ r -> (length l + length a <= length x)%nat ->
  contains a x = true.
Proof.
  intros E L.
  assert (E' : (l ++ a) ++ r = x ++ y) by (rewrite <- app_assoc; auto).
  destruct (app_eq_len (l ++ a) x r y E') as [mid [-> _]].
  - rewrite length_app. exact L.
  - rewrite <- app_assoc. apply contains_intro.
Qed.

Lemma contains_right (a x y l r : text) :
  x ++ y = l ++ a ++ r -> (length x <= length l)%nat ->
  contains a y = true.
Proof.
  intros E L.
  destruct (app_eq_len x l y (a ++ r) E L) as [mid [_ ->]].
  apply contains_intro.
Qed.

Lemma runs_to_first (c y l r : text) :
  runs_to old c -> c ++ old ++ y = l ++ old ++ r ->
  (length c <= length l)%nat.
Proof.
  intros F E. destruct (find_some _ _ _ F) as [_ [_ [_ [_ M]]]].
  destruct (Nat.le_gt_cases (length c) (length l)) as [H | H]; [exact H|].
  assert (E' : (l ++ old) ++ r = (c ++ old) ++ y).
  { rewrite <- !app_assoc. symmetry. exact E. }
  destruct (app_eq_len (l ++ old) (c ++ old) r y E') as [mid [E2 _]].
  - rewrite !length_app. lia.
  - apply (M l mid). rewrite E2, <- app_assoc. reflexivity.
Qed.

Lemma runs_to_find (c y : text) :
  runs_to old c -> find old (c ++ old ++ y) = Some (length c).
Proof.
  intros F. apply find_first. intros l r E.
  exact (runs_to_first c y l r F E).
Qed.

(** [replace] on a text cut at the successive first occurrences. *)
Lemma replace_weave (chunks : list text) (last : text) :
  Forall (runs_to old) chunks -> contains old last = false ->
  replace old new (weave old chunks last) = weave new chunks last.
Proof.
  intros Hc Hl. unfold weave. induction Hc as [|c cs Hrun _ IH]; simpl.
  - apply replace_absent; assumption.
  - rewrite <- !app_assoc.
    rewrite (replace_first old new old_not_empty c _ (runs_to_find c _ Hrun)).
    rewrite IH. reflexivity.
Qed.

(** Every text is cut that way. *)
Lemma weave_exists (t : text) :
  exists chunks last,
    t = weave old chunks last /\ Forall (runs_to old) chunks /\
    contains old last = false.
Proof.
  remember (length t) as n eqn:Hn. revert t Hn.
  induction n as [n IH] using lt_wf_ind. intros t Hn.
  destruct (find old t) as [p|] eqn:F.
  - destruct (find_some _ _ _ F) as [c [y [E [L M]]]].
    destruct (IH (length y)) with (t := y) as [cs [last [Ey [Hcs Hlast]]]].
    + subst n t. rewrite !length_app.
      destruct old; [congruence | simpl; lia].
    + reflexivity.
    + exists (c :: cs), last. repeat split.
      * unfold weave in *. simpl. rewrite <- !app_assoc, <- Ey. exact E.
      * constructor; [|exact Hcs]. unfold runs_to.
        rewrite <- (app_nil_r old) at 2. apply find_first.
        intros l r E'. rewrite app_nil_r in E'.
        rewrite L. apply (M l (r ++ y)).
        rewrite E. rewrite app_assoc, E', <- !app_assoc. reflexivity.
      * exact Hlast.
  - exists [], t. repeat split; [constructor | exact (find_none _ _ F)].
Qed.

(** A fragment [a] that cannot overlap [new] does not appear through the
    replacement: it is absent from the result if it was absent before, and
    [old] itself is always absent from the result. *)
Lemma replace_keeps_absent (a t : text) :
  clash a new = false ->
  a = old \/ contains a t = false ->
  contains a (replace old new t) = false.
Proof.
  intros C. remember (length t) as n eqn:Hn. revert t Hn.
  induction n as [n IH] using lt_wf_ind. intros t Hn Ha.
  destruct (find old t) as [p|] eqn:F.
  - destruct (find_some _ _ _ F) as [c [y [E [L M]]]].
    assert (Hy : contains a (replace old new y) = false).
    { apply (IH (length y)); [ | reflexivity | ].
      - subst n t. rewrite !length_app.
        destruct old; [congruence | simpl; lia].
      - destruct Ha as [Ha | Ha]; [left; exact Ha | right].
        destruct (contains a y) eqn:Cy; [|reflexivity].
        apply contains_inv in Cy as [l [r ->]].
        rewrite E in Ha.
        rewrite (app_assoc c), (app_assoc (c ++ old)) in Ha.
        rewrite contains_intro in Ha. discriminate. }
    rewrite E. subst p. rewrite E in F.
    rewrite (replace_first old new old_not_empty c y F).
    destruct (contains a (c ++ new ++ replace old new y)) eqn:Cr; [|reflexivity].
    exfalso. apply contains_inv in Cr as [l0 [r0 E0]].
    destruct (Nat.le_gt_cases (length c + length new) (length l0)) as [H1 | H1].
    + rewrite app_assoc in E0.
      rewrite (contains_right a (c ++ new) _ l0 r0 E0) in Hy;
        [discriminate | rewrite length_app; exact H1].
    + destruct (Nat.le_gt_cases (length l0 + length a) (length c)) as [H2 | H2].
      * pose proof (contains_left a c _ l0 r0 E0 H2) as Cc.
        destruct Ha as [Ha | Ha].
        -- subst a. apply contains_inv in Cc as [l [r Ec]].
           specialize (M l (r ++ old ++ y)).
           rewrite E, Ec, <- !app_assoc in M. specialize (M eq_refl).
           rewrite !length_app in M.
           destruct old; [congruence | simpl in M; lia].
        -- apply contains_inv in Cc as [l [r Ec]].
           rewrite E, Ec, <- !app_assoc in Ha.
           rewrite contains_intro in Ha. discriminate.
      * rewrite (clash_sound a new l0 r0 c (replace old new y)) in C;
          [discriminate | symmetry; exact E0 | lia | lia].
  - rewrite (replace_absent old new old_not_empty t (find_none _ _ F)).
    destruct Ha as [-> | Ha]; [exact (find_none _ _ F) | exact Ha].
Qed.

End ReplaceAll.

(** ** The pass over a table *)

Lemma apply_cons (e : text * text) (m : list (text * text)) (t : text) :
  apply_replacements (e :: m) t =
  apply_replacements m (replace (fst e) (snd e) t).
Proof. reflexivity. Qed.

Lemma apply_app (m1 m2 : list (text * text)) (t : text) :
  apply_replacements (m1 ++ m2) t =
  apply_replacements m2 (apply_replacements m1 t).
Proof. apply fold_left_app. Qed.

Lemma clean_spec (m : list (text * text)) (t : text) :
  clean m t = true <-> forall e, In e m -> contains (fst e) t = false.
Proof.
  unfold clean. rewrite forallb_forall. split; intros H e He.
  - apply negb_true_iff, H, He.
  - apply negb_true_iff, H, He.
Qed.

(** A text that holds no key goes through the pass unchanged. *)
Lemma apply_clean (m : list (text * text)) (t : text) :
  clean m t = true -> apply_replacements m t = t.
Proof.
  induction m as [|e m IH]; intros H; [reflexivity|].
  simpl in H. apply andb_true_iff in H as [He Hm].
  rewrite apply_cons, replace_absent_any, IH; auto.
  apply negb_true_iff, He.
Qed.

(** A text that no key can touch is a barrier for the whole pass. *)
Lemma apply_barrier (m : list (text * text)) (e l r : text) :
  (forall x, In x m -> fst x <> [] /\ clash (fst x) e = false) ->
  apply_replacements m (l ++ e ++ r) =
  apply_replacements m l ++ e ++ apply_replacements m r.
Proof.
  revert l r. induction m as [|x m IH]; intros l r H; [reflexivity|].
  destruct (H x (or_introl eq_refl)) as [Hx Cx].
  rewrite !apply_cons, replace_barrier by assumption.
  apply IH. intros y Hy. apply H. right. exact Hy.
Qed.

Section Table.

Variable m : list (text * text).
Hypothesis m_ok : table_ok m = true.

Lemma table_entry (e : text * text) :
  In e m ->
  fst e <> [] /\ bordered (fst e) = false /\
  forall e', In e' m -> clash (fst e) (snd e') = false.
Proof.
  intros He. unfold table_ok in m_ok.
  apply andb_true_iff in m_ok as [H _].
  rewrite forallb_forall in H. specialize (H e He). cbv beta in H.
  apply andb_true_iff in H as [H H3]. apply andb_true_iff in H as [H1 H2].
  repeat split.
  - intros E. destruct e as [k n]. simpl in *. subst k. discriminate H1.
  - apply negb_true_iff, H2.
  - intros e' He'. rewrite forallb_forall in H3.
    apply negb_true_iff, H3, He'.
Qed.

Lemma table_keys (i j : nat) :
  (i < length m)%nat -> (j < length m)%nat -> i <> j ->
  clash (fst (entry_at m i)) (fst (entry_at m j)) = false.
Proof.
  intros Hi Hj Hij. unfold table_ok in m_ok.
  apply andb_true_iff in m_ok as [_ H].
  rewrite forallb_forall in H.
  specialize (H i ltac:(apply in_seq; lia)).
  rewrite forallb_forall in H.
  specialize (H j ltac:(apply in_seq; lia)). cbv beta in H.
  apply orb_true_iff in H as [H | H].
  - apply Nat.eqb_eq in H. contradiction.
  - apply negb_true_iff, H.
Qed.

Lemma entry_in (i : nat) : (i < length m)%nat -> In (entry_at m i) m.
Proof. intros H. apply nth_In, H. Qed.

(** One fragment through the rest of the pass: at each entry it is either a
    barrier or, when its own turn comes, replaced. *)
Lemma apply_stage (todo done : list (text * text)) (i : nat) (l r : text) :
  m = done ++ todo -> (i < length m)%nat ->
  apply_replacements todo (l ++ stage m (length done) i ++ r) =
  apply_replacements todo l ++ snd (entry_at m i) ++ apply_replacements todo r.
Proof.
  revert done l r. induction todo as [|e todo IH]; intros done l r Hm Hi.
  - rewrite app_nil_r in Hm. subst done. unfold stage.
    apply Nat.ltb_lt in Hi. rewrite Hi. reflexivity.
  - assert (He : entry_at m (length done) = e).
    { unfold entry_at. rewrite Hm. apply nth_middle. }
    assert (Hj : (length done < length m)%nat).
    { rewrite Hm, length_app. simpl. lia. }
    destruct (table_entry e) as [Hne [Hb Hn]].
    { rewrite Hm. apply in_elt. }
    assert (Hm' : m = (done ++ [e]) ++ todo).
    { rewrite <- app_assoc. exact Hm. }
    specialize (IH (done ++ [e])).
    rewrite length_app in IH. simpl in IH. rewrite Nat.add_1_r in IH.
    rewrite !apply_cons.
    destruct (Nat.lt_trichotomy i (length done)) as [H | [H | H]].
    + assert (S1 : stage m (length done) i = snd (entry_at m i)).
      { unfold stage. apply Nat.ltb_lt in H. rewrite H. reflexivity. }
      assert (S2 : stage m (S (length done)) i = snd (entry_at m i)).
      { unfold stage.
        assert (H' : (i <? S (length done))%nat = true)
          by (apply Nat.ltb_lt; lia).
        rewrite H'. reflexivity. }
      rewrite S1, replace_barrier; [ | exact Hne | apply Hn, entry_in, Hi].
      rewrite S2 in IH. apply IH; assumption.
    + subst i.
      assert (S1 : stage m (length done) (length done) = fst e).
      { unfold stage. rewrite Nat.ltb_irrefl, He. reflexivity. }
      assert (S2 : stage m (S (length done)) (length done) = snd e).
      { unfold stage.
        assert (H' : (length done <? S (length done))%nat = true)
          by (apply Nat.ltb_lt; lia).
        rewrite H', He. reflexivity. }
      rewrite S1, replace_own by assumption.
      rewrite S2 in IH. rewrite He in IH |- *. apply IH; assumption.
    + assert (S1 : stage m (length done) i = fst (entry_at m i)).
      { unfold stage.
        assert (H' : (i <? length done)%nat = false)
          by (apply Nat.ltb_ge; lia).
        rewrite H'. reflexivity. }
      assert (S2 : stage m (S (length done)) i = fst (entry_at m i)).
      { unfold stage.
        assert (H' : (i <? S (length done))%nat = false)
          by (apply Nat.ltb_ge; lia).
        rewrite H'. reflexivity. }
      rewrite S1, replace_barrier; [ | exact Hne | ].
      * rewrite S2 in IH. apply IH; assumption.
      * rewrite <- He. apply table_keys; [exact Hj | exact Hi | lia].
Qed.

(** The pass replaces a fragment where it stands and treats the text on
    either side on its own. *)
Lemma apply_fragment (i : nat) (l r : text) :
  (i < length m)%nat ->
  apply_replacements m (l ++ fst (entry_at m i) ++ r) =
  apply_replacements m l ++ snd (entry_at m i) ++ apply_replacements m r.
Proof.
  intros Hi. exact (apply_stage m [] i l r eq_refl Hi).
Qed.

(** Filler and fragments: every fragment is replaced, the filler is kept. *)
Lemma apply_before (rest : list (nat * text)) (c0 : text) :
  Forall (fun p => (fst p < length m)%nat) rest ->
  clean m c0 = true ->
  Forall (fun p => clean m (snd p) = true) rest ->
  apply_replacements m (before m c0 rest) = after m c0 rest.
Proof.
  revert c0. induction rest as [|[i c1] rest IH]; intros c0 Hi H0 Hr.
  - unfold before, after. simpl. rewrite !app_nil_r. apply apply_clean, H0.
  - inversion Hi as [|? ? Hi1 Hi2]; subst.
    inversion Hr as [|? ? Hr1 Hr2]; subst. simpl in Hi1, Hr1.
    unfold before, after. simpl. rewrite <- !app_assoc.
    rewrite apply_fragment by exact Hi1.
    rewrite (apply_clean m c0 H0).
    specialize (IH c1 Hi2 Hr1 Hr2). unfold before, after in IH.
    rewrite IH. reflexivity.
Qed.

(** Every text is laid out as filler and fragments: the filler before the
    first place where a key starts holds no key, and what follows that key is
    laid out in the same way. *)
Lemma first_fragment (t : text) :
  clean m t = false ->
  exists c i y,
    t = c ++ fst (entry_at m i) ++ y /\ (i < length m)%nat /\
    clean m c = true.
Proof.
  assert (Hnil : clean m [] = true).
  { apply clean_spec. intros e He.
    destruct (table_entry e He) as [Hne _].
    destruct (fst e); [congruence | reflexivity]. }
  induction t as [|d t IH]; intros Ht; [congruence|].
  destruct (existsb (fun e => starts_with (fst e) (d :: t)) m) eqn:Hd.
  - apply existsb_exists in Hd as [e [He Hs]].
    apply starts_with_inv in Hs as [y Ey].
    destruct (In_nth m e ([], []) He) as [i [Hi Ei]].
    exists [], i, y. unfold entry_at. rewrite Ei. auto.
  - assert (Hno : forall e, In e m -> starts_with (fst e) (d :: t) = false).
    { intros e He. destruct (starts_with (fst e) (d :: t)) eqn:Hs; [|reflexivity].
      assert (X : existsb (fun e => starts_with (fst e) (d :: t)) m = true)
        by (apply existsb_exists; exists e; auto).
      congruence. }
    destruct (clean m t) eqn:Ht'.
    + exfalso. assert (X : clean m (d :: t) = true); [|congruence].
      apply clean_spec. intros e He.
      change (starts_with (fst e) (d :: t) || contains (fst e) t = false).
      rewrite (Hno e He). simpl.
      exact (proj1 (clean_spec m t) Ht' e He).
    + destruct (IH eq_refl) as [c [i [y [E [Hi Hc]]]]].
      exists (d :: c), i, y. repeat split; [rewrite E; reflexivity | exact Hi |].
      apply clean_spec. intros e He.
      change (starts_with (fst e) (d :: c) || contains (fst e) c = false).
      rewrite (proj1 (clean_spec m c) Hc e He), orb_false_r.
      destruct (starts_with (fst e) (d :: c)) eqn:Hs; [|reflexivity].
      apply (starts_with_extend _ _ (fst (entry_at m i) ++ y)) in Hs.
      simpl app in Hs. rewrite <- E in Hs. rewrite (Hno e He) in Hs.
      discriminate.
Qed.

Lemma layout_exists (t : text) :
  exists c0 rest,
    t = before m c0 rest /\
    Forall (fun p => (fst p < length m)%nat) rest /\
    clean m c0 = true /\
    Forall (fun p => clean m (snd p) = true) rest.
Proof.
  remember (length t) as n eqn:Hn. revert t Hn.
  induction n as [n IH] using lt_wf_ind. intros t Hn.
  destruct (clean m t) eqn:Ht.
  - exists t, []. unfold before. simpl. rewrite app_nil_r. auto.
  - destruct (first_fragment t Ht) as [c [i [y [E [Hi Hc]]]]].
    destruct (IH (length y)) with (t := y) as [c1 [rest [Ey [H1 [H2 H3]]]]].
    + subst n t. rewrite !length_app.
      destruct (table_entry _ (entry_in i Hi)) as [Hne _].
      destruct (fst (entry_at m i)); [congruence | simpl; lia].
    + reflexivity.
    + exists c, ((i, c1) :: rest). repeat split.
      * unfold before in *. simpl. rewrite <- app_assoc, <- Ey. exact E.
      * constructor; assumption.
      * exact Hc.
      * constructor; assumption.
Qed.

(** What the entries already applied have removed stays removed. *)
Lemma apply_removes (todo done : list (text * text)) (t : text) :
  m = done ++ todo ->
  (forall e, In e done -> contains (fst e) t = false) ->
  clean m (apply_replacements todo t) = true.
Proof.
  revert done t. induction todo as [|e todo IH]; intros done t Hm Hd.
  - rewrite app_nil_r in Hm. subst done. apply clean_spec. exact Hd.
  - rewrite apply_cons. apply (IH (done ++ [e])).
    + rewrite <- app_assoc. exact Hm.
    + assert (He : In e m) by (rewrite Hm; apply in_elt).
      destruct (table_entry e He) as [Hne [_ Hn]].
      intros x Hx. apply in_app_iff in Hx as [Hx | [<- | []]].
      * apply replace_keeps_absent; [exact Hne | | right; apply Hd, Hx].
        destruct (table_entry x) as [_ [_ Hxn]];
          [rewrite Hm; apply in_or_app; left; exact Hx | apply Hxn, He].
      * apply replace_keeps_absent; [exact Hne | apply Hn, He | left; reflexivity].
Qed.

Lemma apply_result_clean (t : text) : clean m (apply_replacements m t) = true.
Proof. apply (apply_removes m [] t eq_refl). intros e []. Qed.

Lemma apply_idempotent (t : text) :
  apply_replacements m (apply_replacements m t) = apply_replacements m t.
Proof. apply apply_clean, apply_result_clean. Qed.

End Table.

(** ** UTF-8 round trip *)

Lemma all_below_spec (f : N -> bool) (n : N) :
  all_below f n = true -> forall i, i < n -> f i = true.
Proof.
  unfold all_below. induction n as [|n IH] using N.peano_ind; intros H i Hi.
  - lia.
  - rewrite N.peano_rect_succ in H. apply andb_true_iff in H as [Hn Hr].
    destruct (N.eq_dec i n) as [-> | Hne]; [exact Hn|].
    apply IH; [exact Hr | lia].
Qed.

(** The low six bits and the rest put back together. *)
Lemma join_bits (c k : N) :
  N.lor (N.shiftl (N.shiftr c k) k) (N.land c (N.ones k)) = c.
Proof.
  apply N.bits_inj. intros n.
  rewrite N.lor_spec, N.land_spec.
  destruct (N.lt_ge_cases n k) as [H | H].
  - rewrite N.shiftl_spec_low, N.ones_spec_low by exact H.
    simpl. apply andb_true_r.
  - rewrite N.shiftl_spec_high', N.shiftr_spec', N.ones_spec_high by exact H.
    rewrite N.sub_add by exact H. rewrite andb_false_r. apply orb_false_r.
Qed.

Lemma join6 (c : N) :
  N.lor (N.shiftl (N.shiftr c 6) 6) (N.land c 0x3F) = c.
Proof. exact (join_bits c 6). Qed.

Lemma join12 (c : N) :
  N.lor (N.shiftl (N.shiftr c 12) 12)
    (N.lor (N.shiftl (N.land (N.shiftr c 6) 0x3F) 6) (N.land c 0x3F)) = c.
Proof.
  rewrite N.lor_assoc.
  change 12 with (6 + 6) at 2. rewrite <- N.shiftl_shiftl, <- N.shiftl_lor.
  change 12 with (6 + 6). rewrite <- N.shiftr_shiftr.
  rewrite (join6 (N.shiftr c 6)). apply join6.
Qed.

Lemma join18 (c : N) :
  N.lor (N.shiftl (N.shiftr c 18) 18)
    (N.lor (N.shiftl (N.land (N.shiftr c 12) 0x3F) 12)
       (N.lor (N.shiftl (N.land (N.shiftr c 6) 0x3F) 6) (N.land c 0x3F))) = c.
Proof.
  rewrite N.lor_assoc.
  change 18 with (6 + 12) at 2. rewrite <- N.shiftl_shiftl.
  rewrite <- N.shiftl_lor.
  change 18 with (12 + 6). rewrite <- N.shiftr_shiftr.
  rewrite (join6 (N.shiftr c 12)). apply join12.
Qed.

Lemma shiftr_lt (c k bound : N) : c < bound * 2 ^ k -> N.shiftr c k < bound.
Proof.
  intros H. rewrite N.shiftr_div_pow2.
  apply N.Div0.div_lt_upper_bound. rewrite N.mul_comm. exact H.
Qed.

Lemma low6_lt (x : N) : N.land x 0x3F < 64.
Proof.
  change 0x3F with (N.ones 6). rewrite N.land_ones.
  apply N.mod_lt. discriminate.
Qed.

(** The continuation and lead bytes, checked over the few payloads each can
    carry. *)
Lemma cont_payload (x : N) :
  is_cont (cont x) = true /\ N.land (cont x) 0x3F = N.land x 0x3F.
Proof.
  unfold cont.
  assert (A : all_below (fun y =>
            is_cont (N.lor 0x80 y) && (N.land (N.lor 0x80 y) 0x3F =? y)) 64
            = true) by (vm_compute; reflexivity).
  pose proof (all_below_spec _ _ A _ (low6_lt x)) as H. cbv beta in H.
  apply andb_true_iff in H as [H1 H2]. apply N.eqb_eq in H2. split; assumption.
Qed.

Lemma lead2 (h : N) :
  h < 32 ->
  utf8_width (N.lor 0xC0 h) = 2%nat /\ N.land (N.lor 0xC0 h) 0x1F = h.
Proof.
  assert (A : all_below (fun h =>
            (utf8_width (N.lor 0xC0 h) =? 2)%nat &&
            (N.land (N.lor 0xC0 h) 0x1F =? h)) 32 = true)
    by (vm_compute; reflexivity).
  intros L. pose proof (all_below_spec _ _ A h L) as H. cbv beta in H.
  apply andb_true_iff in H as [H1 H2].
  apply Nat.eqb_eq in H1. apply N.eqb_eq in H2. split; assumption.
Qed.

Lemma lead3 (h : N) :
  h < 16 ->
  utf8_width (N.lor 0xE0 h) = 3%nat /\ N.land (N.lor 0xE0 h) 0x0F = h.
Proof.
  assert (A : all_below (fun h =>
            (utf8_width (N.lor 0xE0 h) =? 3)%nat &&
            (N.land (N.lor 0xE0 h) 0x0F =? h)) 16 = true)
    by (vm_compute; reflexivity).
  intros L. pose proof (all_below_spec _ _ A h L) as H. cbv beta in H.
  apply andb_true_iff in H as [H1 H2].
  apply Nat.eqb_eq in H1. apply N.eqb_eq in H2. split; assumption.
Qed.

Lemma lead4 (h : N) :
  h < 8 ->
  utf8_width (N.lor 0xF0 h) = 4%nat /\ N.land (N.lor 0xF0 h) 0x07 = h.
Proof.
  assert (A : all_below (fun h =>
            (utf8_width (N.lor 0xF0 h) =? 4)%nat &&
            (N.land (N.lor 0xF0 h) 0x07 =? h)) 8 = true)
    by (vm_compute; reflexivity).
  intros L. pose proof (all_below_spec _ _ A h L) as H. cbv beta in H.
  apply andb_true_iff in H as [H1 H2].
  apply Nat.eqb_eq in H1. apply N.eqb_eq in H2. split; assumption.
Qed.

Lemma utf8_decode_1 (b0 : byte) (r : list byte) :
  utf8_width b0 = 1%nat ->
  utf8_decode ([b0] ++ r) = push (Some b0) (utf8_decode r).
Proof. intros W. cbn [utf8_decode app]. rewrite W. reflexivity. Qed.

Lemma utf8_decode_2 (b0 b1 : byte) (r : list byte) :
  utf8_width b0 = 2%nat ->
  utf8_decode ([b0; b1] ++ r) = push (decode2 b0 b1) (utf8_decode r).
Proof. intros W. cbn [utf8_decode app]. rewrite W. reflexivity. Qed.

Lemma utf8_decode_3 (b0 b1 b2 : byte) (r : list byte) :
  utf8_width b0 = 3%nat ->
  utf8_decode ([b0; b1; b2] ++ r) = push (decode3 b0 b1 b2) (utf8_decode r).
Proof. intros W. cbn [utf8_decode app]. rewrite W. reflexivity. Qed.

Lemma utf8_decode_4 (b0 b1 b2 b3 : byte) (r : list byte) :
  utf8_width b0 = 4%nat ->
  utf8_decode ([b0; b1; b2; b3] ++ r) =
  push (decode4 b0 b1 b2 b3) (utf8_decode r).
Proof. intros W. cbn [utf8_decode app]. rewrite W. reflexivity. Qed.

(** Decoding the bytes of one character gives the character back, whatever
    bytes follow. *)
Lemma decode_encode_char (c : char) (b bs : list byte) :
  utf8_encode_char c = Some b ->
  utf8_decode (b ++ bs) = push (Some c) (utf8_decode bs).
Proof.
  unfold utf8_encode_char.
  destruct (c <? 0x80) eqn:H1.
  { intros E. replace b with [c] by congruence.
    apply utf8_decode_1. unfold utf8_width. rewrite H1. reflexivity. }
  destruct (c <? 0x800) eqn:H2.
  { intros E.
    replace b with [N.lor 0xC0 (N.shiftr c 6); cont c] by congruence.
    apply N.ltb_lt in H2.
    destruct (lead2 (N.shiftr c 6)) as [W P]; [apply shiftr_lt; exact H2|].
    destruct (cont_payload c) as [C0 P0].
    rewrite (utf8_decode_2 _ _ _ W). unfold decode2.
    rewrite C0, P, P0, join6, H1. reflexivity. }
  destruct (c <? 0x10000) eqn:H3.
  { destruct (is_surrogate c) eqn:Hs; [discriminate|].
    intros E.
    replace b with [N.lor 0xE0 (N.shiftr c 12); cont (N.shiftr c 6); cont c]
      by congruence.
    apply N.ltb_lt in H3.
    destruct (lead3 (N.shiftr c 12)) as [W P]; [apply shiftr_lt; exact H3|].
    destruct (cont_payload c) as [C0 P0].
    destruct (cont_payload (N.shiftr c 6)) as [C1 P1].
    rewrite (utf8_decode_3 _ _ _ _ W). unfold decode3.
    rewrite C0, C1, P, P0, P1, join12, H2, Hs. reflexivity. }
  destruct (c <? 0x110000) eqn:H4; [|discriminate].
  intros E.
  replace b with [N.lor 0xF0 (N.shiftr c 18); cont (N.shiftr c 12);
                  cont (N.shiftr c 6); cont c] by congruence.
  apply N.ltb_lt in H4.
  destruct (lead4 (N.shiftr c 18)) as [W P].
  { apply shiftr_lt. apply (N.lt_trans _ _ _ H4). reflexivity. }
  destruct (cont_payload c) as [C0 P0].
  destruct (cont_payload (N.shiftr c 6)) as [C1 P1].
  destruct (cont_payload (N.shiftr c 12)) as [C2 P2].
  rewrite (utf8_decode_4 _ _ _ _ _ W). unfold decode4.
  rewrite C0, C1, C2, P, P0, P1, P2, join18, H3.
  assert (H5 : (0x10FFFF <? c) = false) by (apply N.ltb_ge; lia).
  rewrite H5. reflexivity.
Qed.

Lemma utf8_round_trip (t : text) (bs : list byte) :
  utf8_encode t = Some bs -> utf8_decode bs = Some t.
Proof.
  revert bs. induction t as [|c t IH]; intros bs E.
  - injection E as <-. reflexivity.
  - simpl in E. destruct (utf8_encode_char c) as [b|] eqn:Ec; [|discriminate].
    destruct (utf8_encode t) as [bs'|]; [|discriminate].
    injection E as <-. rewrite (decode_encode_char c b bs' Ec).
    rewrite (IH bs' eq_refl). reflexivity.
Qed.

Lemma encode_scalar_char (c : char) :
  scalar c = true -> exists b, utf8_encode_char c = Some b.
Proof.
  unfold scalar, utf8_encode_char. intros S.
  apply andb_true_iff in S as [S1 S2]. apply negb_true_iff in S2.
  rewrite S1, S2.
  destruct (c <? 0x80); [eexists; reflexivity|].
  destruct (c <? 0x800); [eexists; reflexivity|].
  destruct (c <? 0x10000); eexists; reflexivity.
Qed.

Lemma encode_scalar (t : text) :
  forallb scalar t = true -> exists bs, utf8_encode t = Some bs.
Proof.
  induction t as [|c t IH]; intros H; [exists []; reflexivity|].
  simpl in H. apply andb_true_iff in H as [Hc Ht].
  destruct (encode_scalar_char c Hc) as [b Eb].
  destruct (IH Ht) as [bs Ebs].
  exists (b ++ bs). simpl. rewrite Eb, Ebs. reflexivity.
Qed.

(** ** Replacement keeps the characters of the text and of [new] *)

Lemma forallb_replace_from (P : char -> bool) (old new t : text) (s : nat) :
  forallb P new = true -> forallb P t = true ->
  forallb P (replace_from old new s t) = true.
Proof.
  intros Hn. revert s. induction t as [|c t IH]; intros s Ht.
  - destruct s; reflexivity.
  - simpl in Ht. apply andb_true_iff in Ht as [Hc Ht].
    destruct s as [|s].
    + change (replace_from old new 0 (c :: t)) with
        (if starts_with old (c :: t)
         then new ++ replace_from old new (length old - 1) t
         else c :: replace_from old new 0 t).
      destruct (starts_with old (c :: t)).
      * rewrite forallb_app, Hn, IH; auto.
      * simpl. rewrite Hc, IH; auto.
    + simpl. apply IH, Ht.
Qed.

Lemma forallb_replace (P : char -> bool) (old new t : text) :
  forallb P new = true -> forallb P t = true ->
  forallb P (replace old new t) = true.
Proof.
  intros Hn Ht. destruct old as [|c k].
  - unfold replace, replace_empty. rewrite forallb_app, Hn. simpl.
    induction t as [|d t IH]; [reflexivity|].
    simpl in Ht. apply andb_true_iff in Ht as [Hd Ht].
    simpl. rewrite Hd, forallb_app, Hn, IH; auto.
  - apply forallb_replace_from; assumption.
Qed.

Lemma forallb_apply (P : char -> bool) (m : list (text * text)) (t : text) :
  forallb (fun e => forallb P (snd e)) m = true -> forallb P t = true ->
  forallb P (apply_replacements m t) = true.
Proof.
  revert t. induction m as [|e m IH]; intros t Hm Ht; [exact Ht|].
  simpl in Hm. apply andb_true_iff in Hm as [He Hm].
  rewrite apply_cons. apply IH; [exact Hm|].
  apply forallb_replace; assumption.
Qed.

(** * The script as it is written *)

(** Compiling the module stops in line 5: the key of the first entry is
    closed by the quote that follows the doubled backslash, and the line
    ends inside a later string literal. *)
Lemma replacements_rejected : replacements = SyntaxError_at 5.
Proof. vm_compute. reflexivity. Qed.

(** Hence every run ends with [SyntaxError] before the first statement,
    and the file system is the one it started with. *)
Lemma main_stops (linesep : text) (fs : filesystem) :
  main linesep fs = Some (Raise SyntaxError, fs).
Proof. unfold main. rewrite replacements_rejected. reflexivity. Qed.

(** C1.  On a file that holds a garbled fragment of the table (the key of
    source line 6) the run raises [SyntaxError] and the file keeps its
    bytes: the fragment is not replaced. *)
Lemma fragment_is_not_replaced (linesep : text) :
  main linesep (only_target (py "init(); " ++ garbled_ok_line)) =
  Some (Raise SyntaxError, only_target (py "init(); " ++ garbled_ok_line)).
Proof. apply main_stops. Qed.

(** C2.  The loop applies the entries from first to last, each to the text
    the entries before it have produced.  It is fixed by its two equations
    (no entry: the text itself; a first entry: replace, then go on with the
    rest); an entry at any place works on the output of all entries before
    it; when the replacement text [x] of an entry is the key of a later
    entry, the later entry rewrites what the earlier one produced, so [a]
    becomes [b], while in the other order [a] becomes [x]. *)
Theorem apply_replacements_in_order :
  (forall t, apply_replacements [] t = t) /\
  (forall e m t,
     apply_replacements (e :: m) t =
     apply_replacements m (replace (fst e) (snd e) t)) /\
  (forall m1 e m2 t,
     apply_replacements (m1 ++ e :: m2) t =
     apply_replacements m2
       (replace (fst e) (snd e) (apply_replacements m1 t))) /\
  (forall m1 a x m2 b m3 t,
     apply_replacements (m1 ++ (a, x) :: m2 ++ (x, b) :: m3) t =
     apply_replacements m3
       (replace x b (apply_replacements m2
          (replace a x (apply_replacements m1 t))))) /\
  (forall a x b, a <> [] -> x <> [] ->
     apply_replacements [(a, x); (x, b)] a = b) /\
  (forall a x b, a <> [] -> contains x a = false ->
     apply_replacements [(x, b); (a, x)] a = x).
Proof.
  assert (One : forall k n, k <> [] -> replace k n k = n).
  { intros k n Hk. rewrite <- (app_nil_r k) at 2.
    rewrite (replace_hit k n Hk []).
    rewrite (replace_absent k n Hk []); [apply app_nil_r|].
    destruct k; [congruence | reflexivity]. }
  repeat split.
  - intros. rewrite apply_app, apply_cons. reflexivity.
  - intros. rewrite apply_app, apply_cons, apply_app, apply_cons. reflexivity.
  - intros a x b Ha Hx. rewrite !apply_cons. cbn [fst snd].
    rewrite (One a x Ha), (One x b Hx). reflexivity.
  - intros a x b Ha Hx. rewrite !apply_cons. cbn [fst snd].
    rewrite (replace_absent_any x b a Hx), (One a x Ha). reflexivity.
Qed.

Lemma apply_replacements_in_order_witness :
  apply_replacements [(py "dY", py "[X]"); (py "[X]", py "[INFO]")] (py "dY")
    = py "[INFO]" /\
  apply_replacements [(py "[X]", py "[INFO]"); (py "dY", py "[X]")] (py "dY")
    = py "[X]".
Proof.
  split.
  - exact (proj1 (proj2 (proj2 (proj2 (proj2 apply_replacements_in_order))))
             (py "dY") (py "[X]") (py "[INFO]")
             ltac:(discriminate) ltac:(discriminate)).
  - exact (proj2 (proj2 (proj2 (proj2 (proj2 apply_replacements_in_order))))
             (py "dY") (py "[X]") (py "[INFO]")
             ltac:(discriminate) eq_refl).
Defined.

(** The order matters: with [A -> X] before [X -> B] the text [A] becomes
    [B]; the other way round it becomes [X]. *)
Example order_sensitive :
  apply_replacements [(py "A", py "X"); (py "X", py "B")] (py "A") = py "B" /\
  apply_replacements [(py "X", py "B"); (py "A", py "X")] (py "A") = py "X".
Proof. split; reflexivity. Qed.

(** The model of [str.replace] on the cases that tell the scan apart:
    matches do not overlap and the leftmost one wins. *)
Example replace_leftmost :
  replace (py "aa") (py "b") (py "aaa") = py "ba" /\
  replace (py "aba") (py "-") (py "ababa") = py "-ba" /\
  replace [] (py "-") (py "abc") = py "-a-b-c-".
Proof. repeat split; reflexivity. Qed.

(** C3.  One replacement step rewrites every occurrence of [old] met by a
    scan from the left that jumps over each match: a text cut at the
    successive first occurrences of [old] comes out with [new] at each cut,
    every text can be cut that way, and in particular two occurrences at
    different places are both replaced. *)
Theorem replace_all_occurrences (old new : text) :
  old <> [] ->
  (forall chunks last,
     Forall (runs_to old) chunks -> contains old last = false ->
     replace old new (weave old chunks last) = weave new chunks last) /\
  (forall t, exists chunks last,
     t = weave old chunks last /\ Forall (runs_to old) chunks /\
     contains old last = false) /\
  (forall a b c,
     runs_to old a -> runs_to old b -> contains old c = false ->
     replace old new (a ++ old ++ b ++ old ++ c) = a ++ new ++ b ++ new ++ c).
Proof.
  intros Hne. split; [|split].
  - intros chunks last. apply replace_weave, Hne.
  - apply weave_exists, Hne.
  - intros a b c Ha Hb Hc.
    pose proof (replace_weave old new Hne [a; b] c) as H.
    unfold weave in H. simpl in H. rewrite <- !app_assoc in H.
    apply H; [repeat constructor; assumption | exact Hc].
Qed.

Lemma replace_all_occurrences_witness :
  replace (py "ab") (py "X") (py "1ab2ab3") = py "1X2X3".
Proof.
  exact (proj2 (proj2 (replace_all_occurrences (py "ab") (py "X")
           ltac:(discriminate))) (py "1") (py "2") (py "3")
           eq_refl eq_refl eq_refl).
Defined.


(** C5.  Scenario 1.  On a file that holds the garbled initialisation line,
    spelled with a double quote after [dY] or with a backslash and a double
    quote, the run raises [SyntaxError] and the line stays as it was. *)
Lemma scenario_1_line_stays (linesep : text) :
  main linesep (only_target scenario_1_line) =
    Some (Raise SyntaxError, only_target scenario_1_line) /\
  main linesep (only_target scenario_1_line_backslash) =
    Some (Raise SyntaxError, only_target scenario_1_line_backslash).
Proof. split; apply main_stops. Qed.

(** C6.  On a file that holds no fragment of the table the run does not
    end silently: it raises [SyntaxError].  The file keeps its bytes only
    because nothing is written. *)
Lemma run_without_match_raises (linesep : text) :
  main linesep (only_target (py "console.log('plain');")) =
  Some (Raise SyntaxError, only_target (py "console.log('plain');")).
Proof. apply main_stops. Qed.

(** C7.  When the target file is missing the run does not fail with the
    error of the read: [read_text] would raise [FileNotFoundError], but the
    run raises [SyntaxError] before the read.  No file is created. *)
Lemma missing_file_raises_syntax_error (linesep : text) :
  read_text no_target path = Raise FileNotFoundError /\
  main linesep no_target = Some (Raise SyntaxError, no_target).
Proof. split; [reflexivity | apply main_stops]. Qed.



(** ** The order of the entries *)

Section Order.

Variable m : list (text * text).
Hypothesis m_ok : table_ok m = true.

Lemma table_keys_distinct : NoDup (map fst m).
Proof.
  apply (NoDup_nth (map fst m) []). intros i j Hi Hj E.
  destruct (Nat.eq_dec i j) as [-> | Hne]; [reflexivity | exfalso].
  rewrite length_map in Hi, Hj.
  assert (Ni : forall k, nth k (map fst m) [] = fst (entry_at m k)).
  { intros k. exact (map_nth fst m ([], []) k). }
  pose proof (table_keys m m_ok i j Hi Hj Hne) as C.
  rewrite <- !Ni in C. rewrite E in C.
  assert (Hk : nth j (map fst m) [] <> []).
  { rewrite Ni. apply (table_entry m m_ok), nth_In, Hj. }
  rewrite (clash_inside _ _ Hk) in C; [discriminate|].
  rewrite <- (app_nil_r (nth j (map fst m) [])) at 2.
  apply (contains_intro _ []).
Qed.

(** Two entries of the table have the same key or keys that cannot
    overlap. *)
Lemma table_pairs (e e' : text * text) :
  In e m -> In e' m -> fst e = fst e' \/ clash (fst e) (fst e') = false.
Proof.
  intros He He'.
  destruct (In_nth m e ([], []) He) as [i [Hi Ei]].
  destruct (In_nth m e' ([], []) He') as [j [Hj Ej]].
  assert (Ei' : entry_at m i = e) by exact Ei.
  assert (Ej' : entry_at m j = e') by exact Ej.
  destruct (Nat.eq_dec i j) as [Hij | Hij].
  - left. rewrite <- Ei', <- Ej', Hij. reflexivity.
  - right. rewrite <- Ei', <- Ej'. apply (table_keys m m_ok); assumption.
Qed.

(** The pass on filler and fragments, the fragments given as entries. *)
Lemma apply_layout (rest : list ((text * text) * text)) (c0 : text) :
  Forall (fun p => In (fst p) m) rest ->
  clean m c0 = true ->
  Forall (fun p => clean m (snd p) = true) rest ->
  apply_replacements m
    (c0 ++ flat_map (fun p => fst (fst p) ++ snd p) rest) =
  c0 ++ flat_map (fun p => snd (fst p) ++ snd p) rest.
Proof.
  revert c0. induction rest as [|[e c1] rest IH]; intros c0 Hi H0 Hr.
  - simpl. rewrite !app_nil_r. apply apply_clean, H0.
  - inversion Hi as [|? ? Hi1 Hi2]; subst.
    inversion Hr as [|? ? Hr1 Hr2]; subst. simpl in Hi1, Hr1.
    destruct (In_nth m e ([], []) Hi1) as [i [Hlt Ei]].
    assert (Ei' : entry_at m i = e) by exact Ei.
    simpl. rewrite <- !app_assoc. rewrite <- Ei'.
    rewrite (apply_fragment m m_ok i) by exact Hlt.
    rewrite (apply_clean m c0 H0), (IH c1 Hi2 Hr1 Hr2). reflexivity.
Qed.

End Order.

Lemma table_ok_intro (m : list (text * text)) :
  (forall e, In e m ->
     fst e <> [] /\ bordered (fst e) = false /\
     forall e', In e' m -> clash (fst e) (snd e') = false) ->
  (forall i j, (i < length m)%nat -> (j < length m)%nat -> i <> j ->
     clash (fst (entry_at m i)) (fst (entry_at m j)) = false) ->
  table_ok m = true.
Proof.
  intros HA HB. unfold table_ok. apply andb_true_iff. split.
  - apply forallb_forall. intros e He.
    destruct (HA e He) as [H1 [H2 H3]]. cbv beta.
    apply andb_true_iff. split; [apply andb_true_iff; split|].
    + apply negb_true_iff, Nat.eqb_neq. intros L. apply H1.
      apply length_zero_iff_nil. exact L.
    + apply negb_true_iff. exact H2.
    + apply forallb_forall. intros e' He'. cbv beta.
      apply negb_true_iff. exact (H3 e' He').
  - apply forallb_forall. intros i Hi. apply in_seq in Hi.
    apply forallb_forall. intros j Hj. apply in_seq in Hj. cbv beta.
    destruct (Nat.eq_dec i j) as [-> | Hij].
    + rewrite Nat.eqb_refl. reflexivity.
    + apply orb_true_iff. right. apply negb_true_iff.
      apply HB; [lia | lia | exact Hij].
Qed.

(** The conditions on a table do not depend on the order of its entries. *)
Lemma table_ok_perm (m m' : list (text * text)) :
  table_ok m = true -> Permutation m m' -> table_ok m' = true.
Proof.
  intros Hok P.
  assert (Back : forall e, In e m' -> In e m).
  { intros e. apply Permutation_in, Permutation_sym, P. }
  assert (D : NoDup (map fst m')).
  { apply (Permutation_NoDup (Permutation_map fst P)).
    exact (table_keys_distinct m Hok). }
  apply table_ok_intro.
  - intros e He. destruct (table_entry m Hok e (Back e He)) as [H1 [H2 H3]].
    repeat split; [exact H1 | exact H2 |].
    intros e' He'. apply H3, Back, He'.
  - intros i j Hi Hj Hij.
    destruct (table_pairs m Hok (entry_at m' i) (entry_at m' j)) as [E | C].
    + apply Back, nth_In, Hi.
    + apply Back, nth_In, Hj.
    + exfalso. apply Hij.
      rewrite NoDup_nth in D. apply (D i j).
      * rewrite length_map. exact Hi.
      * rewrite length_map. exact Hj.
      * change (@nil char) with (fst (@nil char, @nil char)).
        rewrite !map_nth. exact E.
    + exact C.
Qed.

(** ** The codec, both ways *)

(** Six bits [l] appended below [h]. *)
Lemma small_bits (l k n : N) : l < 2 ^ k -> k <= n -> N.testbit l n = false.
Proof.
  intros Hl Hn. rewrite <- (N.mod_small l (2 ^ k)) by exact Hl.
  apply N.mod_pow2_bits_high. exact Hn.
Qed.

Lemma pack_hi (h l : N) :
  l < 64 -> N.shiftr (N.lor (N.shiftl h 6) l) 6 = h.
Proof.
  intros Hl. apply N.bits_inj. intros n.
  rewrite N.shiftr_spec', N.lor_spec.
  rewrite N.shiftl_spec_high' by lia.
  rewrite (small_bits l 6 (n + 6)) by (try exact Hl; lia).
  rewrite N.add_sub. apply orb_false_r.
Qed.

Lemma pack_lo (h l : N) :
  l < 64 -> N.land (N.lor (N.shiftl h 6) l) 0x3F = l.
Proof.
  intros Hl. apply N.bits_inj. intros n.
  change 0x3F with (N.ones 6). rewrite N.land_spec, N.lor_spec.
  destruct (N.lt_ge_cases n 6) as [H | H].
  - rewrite N.shiftl_spec_low, N.ones_spec_low by exact H.
    simpl. apply andb_true_r.
  - rewrite N.ones_spec_high by exact H.
    rewrite (small_bits l 6 n Hl H). apply andb_false_r.
Qed.

Lemma pack_lt (h l bound : N) :
  l < 64 -> h < bound -> N.lor (N.shiftl h 6) l < bound * 64.
Proof.
  intros Hl Hh. set (c := N.lor (N.shiftl h 6) l).
  pose proof (N.Div0.div_mod c 64) as D.
  assert (Q : c / 64 = h).
  { change 64 with (2 ^ 6). rewrite <- N.shiftr_div_pow2. apply pack_hi, Hl. }
  pose proof (N.mod_lt c 64 ltac:(discriminate)) as R.
  rewrite Q in D. lia.
Qed.

Lemma pack12 (h m l : N) :
  N.lor (N.shiftl h 12) (N.lor (N.shiftl m 6) l) =
  N.lor (N.shiftl (N.lor (N.shiftl h 6) m) 6) l.
Proof.
  rewrite N.shiftl_lor, N.shiftl_shiftl, N.lor_assoc. reflexivity.
Qed.

Lemma pack18 (h m1 m2 l : N) :
  N.lor (N.shiftl h 18)
    (N.lor (N.shiftl m1 12) (N.lor (N.shiftl m2 6) l)) =
  N.lor (N.shiftl (N.lor (N.shiftl (N.lor (N.shiftl h 6) m1) 6) m2) 6) l.
Proof.
  rewrite !N.shiftl_lor, !N.shiftl_shiftl, !N.lor_assoc. reflexivity.
Qed.

Lemma low_lt (x k : N) : N.land x (N.ones k) < 2 ^ k.
Proof.
  rewrite N.land_ones. apply N.mod_lt, N.pow_nonzero. discriminate.
Qed.

(** A byte is rebuilt from its class and its payload. *)
Lemma cont_rebuild (b : byte) :
  b < 256 -> is_cont b = true -> cont b = b.
Proof.
  assert (A : all_below (fun b => implb (is_cont b) (cont b =? b)) 256 = true)
    by (vm_compute; reflexivity).
  intros L C. pose proof (all_below_spec _ _ A b L) as H. cbv beta in H.
  rewrite C in H. apply N.eqb_eq. exact H.
Qed.

Lemma width_lt (b : byte) : utf8_width b <> 0%nat -> b < 256.
Proof.
  unfold utf8_width. intros H.
  destruct (b <? 0x80) eqn:H1; [apply N.ltb_lt in H1; lia|].
  destruct (b <? 0xC0) eqn:H2; [congruence|].
  destruct (b <? 0xE0) eqn:H3; [apply N.ltb_lt in H3; lia|].
  destruct (b <? 0xF0) eqn:H4; [apply N.ltb_lt in H4; lia|].
  destruct (b <? 0xF8) eqn:H5; [apply N.ltb_lt in H5; lia | congruence].
Qed.

Lemma lead_rebuild (b : byte) :
  (utf8_width b = 1%nat -> b < 0x80) /\
  (utf8_width b = 2%nat -> N.lor 0xC0 (N.land b 0x1F) = b) /\
  (utf8_width b = 3%nat -> N.lor 0xE0 (N.land b 0x0F) = b) /\
  (utf8_width b = 4%nat -> N.lor 0xF0 (N.land b 0x07) = b).
Proof.
  assert (A : all_below (fun b =>
      implb (utf8_width b =? 1)%nat (b <? 0x80) &&
      implb (utf8_width b =? 2)%nat (N.lor 0xC0 (N.land b 0x1F) =? b) &&
      implb (utf8_width b =? 3)%nat (N.lor 0xE0 (N.land b 0x0F) =? b) &&
      implb (utf8_width b =? 4)%nat (N.lor 0xF0 (N.land b 0x07) =? b)) 256
      = true) by (vm_compute; reflexivity).
  assert (G : forall n, utf8_width b = n -> n <> 0%nat ->
    implb (n =? 1)%nat (b <? 0x80) &&
    implb (n =? 2)%nat (N.lor 0xC0 (N.land b 0x1F) =? b) &&
    implb (n =? 3)%nat (N.lor 0xE0 (N.land b 0x0F) =? b) &&
    implb (n =? 4)%nat (N.lor 0xF0 (N.land b 0x07) =? b) = true).
  { intros n W Hn. subst n.
    exact (all_below_spec _ _ A b (width_lt b Hn)). }
  repeat split; intros W; specialize (G _ W ltac:(discriminate));
    simpl in G; rewrite ?andb_true_r in G.
  - apply N.ltb_lt. exact G.
  - apply N.eqb_eq. exact G.
  - apply N.eqb_eq. exact G.
  - apply N.eqb_eq. exact G.
Qed.

(** What each decoder accepts is an encodable character, and encoding it
    gives the bytes it was decoded from. *)
Lemma decode2_inv (b0 b1 : byte) (c : char) :
  utf8_width b0 = 2%nat -> decode2 b0 b1 = Some c ->
  scalar c = true /\
  (b1 < 256 -> utf8_encode_char c = Some [b0; b1]).
Proof.
  intros W. unfold decode2.
  destruct (is_cont b1) eqn:C1; [|discriminate].
  set (h := N.land b0 0x1F). set (l := N.land b1 0x3F).
  destruct (N.lor (N.shiftl h 6) l <? 0x80) eqn:Lo; [discriminate|].
  intros E. assert (Ec : c = N.lor (N.shiftl h 6) l) by congruence. clear E.
  assert (Hl : l < 64) by exact (low_lt b1 6).
  assert (Hh : h < 32) by exact (low_lt b0 5).
  pose proof (pack_lt h l 32 Hl Hh) as B.
  pose proof (pack_hi h l Hl) as Hi. pose proof (pack_lo h l Hl) as Lw.
  rewrite <- Ec in B, Hi, Lw, Lo. clear Ec.
  assert (S1 : is_surrogate c = false).
  { unfold is_surrogate. apply andb_false_iff. left. apply N.leb_gt. lia. }
  split.
  - unfold scalar. rewrite S1.
    assert (X : (c <? 0x110000) = true) by (apply N.ltb_lt; lia).
    rewrite X. reflexivity.
  - intros L1. unfold utf8_encode_char. rewrite Lo.
    assert (X : (c <? 0x800) = true) by (apply N.ltb_lt; lia).
    rewrite X. unfold cont at 1. rewrite Hi, Lw. subst h l.
    change (N.lor 0x80 (N.land b1 0x3F)) with (cont b1).
    rewrite (cont_rebuild b1 L1 C1).
    rewrite (proj1 (proj2 (lead_rebuild b0)) W). reflexivity.
Qed.

Lemma decode3_inv (b0 b1 b2 : byte) (c : char) :
  utf8_width b0 = 3%nat -> decode3 b0 b1 b2 = Some c ->
  scalar c = true /\
  (b1 < 256 -> b2 < 256 -> utf8_encode_char c = Some [b0; b1; b2]).
Proof.
  intros W. unfold decode3.
  destruct (is_cont b1) eqn:C1; [|discriminate].
  destruct (is_cont b2) eqn:C2; [|discriminate]. simpl andb.
  set (h := N.land b0 0x0F). set (m := N.land b1 0x3F).
  set (l := N.land b2 0x3F). rewrite pack12.
  set (hm := N.lor (N.shiftl h 6) m).
  destruct ((N.lor (N.shiftl hm 6) l <? 0x800)
            || is_surrogate (N.lor (N.shiftl hm 6) l)) eqn:Chk; [discriminate|].
  intros E. assert (Ec : c = N.lor (N.shiftl hm 6) l) by congruence. clear E.
  assert (Hl : l < 64) by exact (low_lt b2 6).
  assert (Hm : m < 64) by exact (low_lt b1 6).
  assert (Hh : h < 16) by exact (low_lt b0 4).
  pose proof (pack_lt h m 16 Hm Hh) as Bhm.
  pose proof (pack_hi h m Hm) as Hi1. pose proof (pack_lo h m Hm) as Lw1.
  fold hm in Bhm, Hi1, Lw1.
  pose proof (pack_lt hm l _ Hl Bhm) as B.
  pose proof (pack_hi hm l Hl) as Hi. pose proof (pack_lo hm l Hl) as Lw.
  rewrite <- Ec in B, Hi, Lw, Chk. clear Ec.
  apply orb_false_iff in Chk as [Lo S1].
  assert (X1 : (c <? 0x80) = false) by (apply N.ltb_ge; apply N.ltb_ge in Lo; lia).
  assert (X3 : (c <? 0x10000) = true) by (apply N.ltb_lt; lia).
  split.
  - unfold scalar. rewrite S1.
    assert (X : (c <? 0x110000) = true) by (apply N.ltb_lt; lia).
    rewrite X. reflexivity.
  - intros L1 L2. unfold utf8_encode_char. rewrite X1, Lo, X3, S1.
    assert (Hi12 : N.shiftr c 12 = h).
    { change 12 with (6 + 6). rewrite <- N.shiftr_shiftr, Hi. exact Hi1. }
    rewrite Hi12. unfold cont. rewrite Hi, Lw, Lw1. subst h m l.
    change (N.lor 0x80 (N.land b1 0x3F)) with (cont b1).
    change (N.lor 0x80 (N.land b2 0x3F)) with (cont b2).
    rewrite (cont_rebuild b1 L1 C1), (cont_rebuild b2 L2 C2).
    rewrite (proj1 (proj2 (proj2 (lead_rebuild b0))) W). reflexivity.
Qed.

Lemma decode4_inv (b0 b1 b2 b3 : byte) (c : char) :
  utf8_width b0 = 4%nat -> decode4 b0 b1 b2 b3 = Some c ->
  scalar c = true /\
  (b1 < 256 -> b2 < 256 -> b3 < 256 ->
   utf8_encode_char c = Some [b0; b1; b2; b3]).
Proof.
  intros W. unfold decode4.
  destruct (is_cont b1) eqn:C1; [|discriminate].
  destruct (is_cont b2) eqn:C2; [|discriminate].
  destruct (is_cont b3) eqn:C3; [|discriminate]. simpl andb.
  set (h := N.land b0 0x07). set (m1 := N.land b1 0x3F).
  set (m2 := N.land b2 0x3F). set (l := N.land b3 0x3F). rewrite pack18.
  set (x1 := N.lor (N.shiftl h 6) m1).
  set (x2 := N.lor (N.shiftl x1 6) m2).
  destruct ((N.lor (N.shiftl x2 6) l <? 0x10000)
            || (0x10FFFF <? N.lor (N.shiftl x2 6) l)) eqn:Chk; [discriminate|].
  intros E. assert (Ec : c = N.lor (N.shiftl x2 6) l) by congruence. clear E.
  assert (Hl : l < 64) by exact (low_lt b3 6).
  assert (Hm2 : m2 < 64) by exact (low_lt b2 6).
  assert (Hm1 : m1 < 64) by exact (low_lt b1 6).
  pose proof (pack_hi h m1 Hm1) as Hi1. pose proof (pack_lo h m1 Hm1) as Lw1.
  fold x1 in Hi1, Lw1.
  pose proof (pack_hi x1 m2 Hm2) as Hi2. pose proof (pack_lo x1 m2 Hm2) as Lw2.
  fold x2 in Hi2, Lw2.
  pose proof (pack_hi x2 l Hl) as Hi. pose proof (pack_lo x2 l Hl) as Lw.
  rewrite <- Ec in Hi, Lw, Chk. clear Ec.
  apply orb_false_iff in Chk as [Lo Up].
  apply N.ltb_ge in Lo. apply N.ltb_ge in Up.
  assert (X1 : (c <? 0x80) = false) by (apply N.ltb_ge; lia).
  assert (X2 : (c <? 0x800) = false) by (apply N.ltb_ge; lia).
  assert (X3 : (c <? 0x10000) = false) by (apply N.ltb_ge; lia).
  assert (X4 : (c <? 0x110000) = true) by (apply N.ltb_lt; lia).
  split.
  - unfold scalar. rewrite X4. unfold is_surrogate.
    assert (X : (c <=? 0xDFFF) = false) by (apply N.leb_gt; lia).
    rewrite X, andb_false_r. reflexivity.
  - intros L1 L2 L3. unfold utf8_encode_char. rewrite X1, X2, X3, X4.
    assert (Hi12 : N.shiftr c 12 = x1).
    { change 12 with (6 + 6). rewrite <- N.shiftr_shiftr, Hi. exact Hi2. }
    assert (Hi18 : N.shiftr c 18 = h).
    { change 18 with (12 + 6). rewrite <- N.shiftr_shiftr, Hi12. exact Hi1. }
    rewrite Hi18, Hi12. unfold cont. rewrite Hi, Lw, Lw1, Lw2. subst h m1 m2 l.
    change (N.lor 0x80 (N.land b1 0x3F)) with (cont b1).
    change (N.lor 0x80 (N.land b2 0x3F)) with (cont b2).
    change (N.lor 0x80 (N.land b3 0x3F)) with (cont b3).
    rewrite (cont_rebuild b1 L1 C1), (cont_rebuild b2 L2 C2),
            (cont_rebuild b3 L3 C3).
    rewrite (proj2 (proj2 (proj2 (lead_rebuild b0))) W). reflexivity.
Qed.

Lemma push_inv (oc : option char) (r : option text) (t : text) :
  push oc r = Some t ->
  exists c t', oc = Some c /\ r = Some t' /\ t = c :: t'.
Proof.
  destruct oc as [c|], r as [t'|]; simpl; try discriminate.
  intros [= <-]. exists c, t'. auto.
Qed.

(** Whatever the decoder accepts is made of encodable characters, and, the
    bytes being bytes, encoding the text gives them back. *)
Lemma utf8_decode_inv (bs : list byte) (t : text) :
  utf8_decode bs = Some t ->
  forallb scalar t = true /\
  (forallb (fun b => b <? 256) bs = true -> utf8_encode t = Some bs).
Proof.
  remember (length bs) as n eqn:Hn. revert bs t Hn.
  induction n as [n IH] using lt_wf_ind. intros bs t Hn H.
  destruct bs as [|b0 r0].
  { injection H as <-. split; reflexivity. }
  cbn [utf8_decode] in H.
  destruct (utf8_width b0) as [|[|[|[|[|w]]]]] eqn:W; try discriminate H.
  - apply push_inv in H as [c [t' [Ec [Er ->]]]]. injection Ec as <-.
    destruct (IH (length r0)) with (bs := r0) (t := t') as [S E];
      [subst n; simpl; lia | reflexivity | exact Er |].
    pose proof (proj1 (lead_rebuild b0) W) as L.
    assert (L' : (b0 <? 0x80) = true) by (apply N.ltb_lt; exact L).
    split.
    + cbn [forallb]. rewrite S, andb_true_r. unfold scalar, is_surrogate.
      assert (X : (b0 <? 0x110000) = true) by (apply N.ltb_lt; lia).
      assert (Y : (0xD800 <=? b0) = false) by (apply N.leb_gt; lia).
      rewrite X, Y. reflexivity.
    + intros B. cbn [forallb] in B. apply andb_true_iff in B as [_ B].
      cbn [utf8_encode]. unfold utf8_encode_char. rewrite L', (E B).
      reflexivity.
  - destruct r0 as [|b1 r1]; [discriminate H|].
    apply push_inv in H as [c [t' [Ec [Er ->]]]].
    destruct (IH (length r1)) with (bs := r1) (t := t') as [S E];
      [subst n; simpl; lia | reflexivity | exact Er |].
    destruct (decode2_inv b0 b1 c W Ec) as [Sc Enc].
    split.
    + cbn [forallb]. rewrite Sc, S. reflexivity.
    + intros B. cbn [forallb] in B.
      apply andb_true_iff in B as [_ B]. apply andb_true_iff in B as [B1 B].
      apply N.ltb_lt in B1.
      cbn [utf8_encode]. rewrite (Enc B1), (E B). reflexivity.
  - destruct r0 as [|b1 [|b2 r2]]; try discriminate H.
    apply push_inv in H as [c [t' [Ec [Er ->]]]].
    destruct (IH (length r2)) with (bs := r2) (t := t') as [S E];
      [subst n; simpl; lia | reflexivity | exact Er |].
    destruct (decode3_inv b0 b1 b2 c W Ec) as [Sc Enc].
    split.
    + cbn [forallb]. rewrite Sc, S. reflexivity.
    + intros B. cbn [forallb] in B.
      apply andb_true_iff in B as [_ B]. apply andb_true_iff in B as [B1 B].
      apply andb_true_iff in B as [B2 B].
      apply N.ltb_lt in B1. apply N.ltb_lt in B2.
      cbn [utf8_encode]. rewrite (Enc B1 B2), (E B). reflexivity.
  - destruct r0 as [|b1 [|b2 [|b3 r3]]]; try discriminate H.
    apply push_inv in H as [c [t' [Ec [Er ->]]]].
    destruct (IH (length r3)) with (bs := r3) (t := t') as [S E];
      [subst n; simpl; lia | reflexivity | exact Er |].
    destruct (decode4_inv b0 b1 b2 b3 c W Ec) as [Sc Enc].
    split.
    + cbn [forallb]. rewrite Sc, S. reflexivity.
    + intros B. cbn [forallb] in B.
      apply andb_true_iff in B as [_ B]. apply andb_true_iff in B as [B1 B].
      apply andb_true_iff in B as [B2 B]. apply andb_true_iff in B as [B3 B].
      apply N.ltb_lt in B1. apply N.ltb_lt in B2. apply N.ltb_lt in B3.
      cbn [utf8_encode]. rewrite (Enc B1 B2 B3), (E B). reflexivity.
Qed.

(** X6.  UTF-8 round trip, from text: whenever a text can be encoded, the
    bytes decode to that very text; and a text can be encoded exactly when
    it holds no surrogate and nothing above U+10FFFF. *)
Theorem utf8_encode_then_decode (t : text) :
  (forall bs, utf8_encode t = Some bs -> utf8_decode bs = Some t) /\
  (forallb scalar t = true <-> exists bs, utf8_encode t = Some bs).
Proof.
  split; [intros bs; apply utf8_round_trip|]. split; [apply encode_scalar|].
  intros [bs E]. exact (proj1 (utf8_decode_inv bs t (utf8_round_trip t bs E))).
Qed.

Lemma utf8_encode_then_decode_witness :
  utf8_decode [0x61; 0xEF; 0xBF; 0xBD; 0xF0; 0x9F; 0x94; 0xA7] =
  Some [0x61; U_FFFD; 0x1F527].
Proof.
  exact (proj1 (utf8_encode_then_decode [0x61; U_FFFD; 0x1F527]) _ eq_refl).
Defined.

(** X7.  UTF-8 round trip, from bytes: the decoder is strict, so when a
    sequence of bytes decodes to a text, encoding that text gives the same
    bytes back.  No two byte sequences decode to the same text. *)
Theorem utf8_decode_then_encode (bs : list byte) (t : text) :
  forallb (fun b => b <? 256) bs = true ->
  utf8_decode bs = Some t ->
  utf8_encode t = Some bs.
Proof.
  intros B H. exact (proj2 (utf8_decode_inv bs t H) B).
Qed.

Lemma utf8_decode_then_encode_witness :
  utf8_encode [0x61; 0xE9; U_FFFD] = Some [0x61; 0xC3; 0xA9; 0xEF; 0xBF; 0xBD].
Proof.
  exact (utf8_decode_then_encode [0x61; 0xC3; 0xA9; 0xEF; 0xBF; 0xBD]
           [0x61; 0xE9; U_FFFD] eq_refl eq_refl).
Defined.

(** * Further properties *)

(** ** The script *)

(** X8.  Whatever the file system and the platform, a run of the script
    ends with [SyntaxError] before its first statement: compiling stops in
    line 5, nothing is read, nothing is written, no file is created. *)
Theorem script_raises_syntax_error :
  replacements = SyntaxError_at 5 /\
  forall linesep fs, main linesep fs = Some (Raise SyntaxError, fs).
Proof.
  split; [exact replacements_rejected | exact main_stops].
Qed.


(** The lines that can be read give the entries one expects: lines 6 and 9
    between braces compile to [sample_table]. *)
Example good_lines_compile :
  compile (py "{" ++ nth 5 source_lines [] ++ nth 8 source_lines [] ++ py "}")
  = Table sample_table.
Proof. vm_compute. reflexivity. Qed.

(** X13.  In a string literal a doubled backslash is one backslash and does
    not protect the quote after it: the literal ends at that quote.  A
    single backslash before the quote keeps the literal open, with the
    quote as one of its characters. *)
Theorem doubled_backslash_ends_literal
    (q : char) (body acc rest : text) (line : nat) :
  is_quote q = true ->
  forallb (fun c => negb (c =? q) && negb (c =? bslash) &&
                    negb (c =? newline)) body = true ->
  lex (Str q acc) line (body ++ [bslash; bslash; q] ++ rest) =
    emit (TString (rev acc ++ body ++ [bslash])) (lex (Code false) line rest)
  /\
  lex (Str q acc) line (body ++ [bslash; q] ++ rest) =
    lex (Str q (q :: rev body ++ acc)) line rest.
Proof.
  intros Hq. revert acc.
  assert (Q1 : (bslash =? q) = false).
  { unfold is_quote in Hq. apply orb_true_iff in Hq as [E | E];
      apply N.eqb_eq in E; subst q; reflexivity. }
  assert (Q2 : simple_escape q = Some q).
  { unfold is_quote in Hq. apply orb_true_iff in Hq as [E | E];
      apply N.eqb_eq in E; subst q; reflexivity. }
  assert (Q3 : (q =? newline) = false /\ (q =? 117) = false).
  { unfold is_quote in Hq. apply orb_true_iff in Hq as [E | E];
      apply N.eqb_eq in E; subst q; split; reflexivity. }
  destruct Q3 as [Q3 Q4].
  induction body as [|c body IH]; intros acc Hb.
  - split.
    + cbn [app lex]. rewrite Q1. cbn [N.eqb bslash Pos.eqb].
      cbn [lex]. rewrite N.eqb_refl. cbn [rev]. reflexivity.
    + cbn [app lex]. rewrite Q1. cbn [N.eqb bslash Pos.eqb].
      rewrite Q3, Q4, Q2. reflexivity.
  - cbn [forallb] in Hb. apply andb_true_iff in Hb as [Hc Hb].
    apply andb_true_iff in Hc as [Hc H3]. apply andb_true_iff in Hc as [H1 H2].
    apply negb_true_iff in H1. apply negb_true_iff in H2.
    apply negb_true_iff in H3.
    destruct (IH (c :: acc) Hb) as [I1 I2]. split.
    + cbn [app lex]. rewrite H1, H2, H3.
      change (body ++ bslash :: bslash :: q :: rest)
        with (body ++ [bslash; bslash; q] ++ rest).
      rewrite I1. cbn [rev]. rewrite <- !app_assoc. reflexivity.
    + cbn [app lex]. rewrite H1, H2, H3.
      change (body ++ bslash :: q :: rest) with (body ++ [bslash; q] ++ rest).
      rewrite I2. cbn [rev]. rewrite <- !app_assoc. reflexivity.
Qed.

Lemma doubled_backslash_ends_literal_witness :
  lex (Str dquote []) 5 (py "dY" ++ [bslash; bslash; dquote] ++ py ", I") =
    emit (TString (rev [] ++ py "dY" ++ [bslash]))
      (lex (Code false) 5 (py ", I")) /\
  lex (Str dquote []) 5 (py "dY" ++ [bslash; dquote] ++ py ", I") =
    lex (Str dquote (dquote :: rev (py "dY") ++ [])) 5 (py ", I").
Proof.
  exact (doubled_backslash_ends_literal dquote (py "dY") [] (py ", I") 5
           eq_refl eq_refl).
Defined.

(** ** The loop, for any table whose entries do not interfere

    [table_ok m] can be checked by computation on a table; it holds for
    [sample_table].  None of what follows depends on how the lines that
    Python cannot read are meant. *)

Lemma sample_table_ok : table_ok sample_table = true.
Proof. vm_compute. reflexivity. Qed.

(** X1.  After the loop no key of the table is left in the text, whatever
    the input. *)
Theorem loop_leaves_no_key (m : list (text * text)) (t : text) :
  table_ok m = true -> clean m (apply_replacements m t) = true.
Proof.
  intros Hok. apply (apply_removes m Hok m [] t).
  - reflexivity.
  - intros e [].
Qed.

Lemma loop_leaves_no_key_witness :
  clean sample_table
    (apply_replacements sample_table (py "a(); " ++ fst (entry_at sample_table 1)))
  = true.
Proof.
  exact (loop_leaves_no_key sample_table _ eq_refl).
Defined.

(** X2.  Every entry [(old, new)] is replaced where it stands: the loop
    puts [new] in the place of [old] and handles the text before and the
    text after independently of each other. *)
Theorem loop_replaces_entry_in_place
    (m : list (text * text)) (old new l r : text) :
  table_ok m = true -> In (old, new) m ->
  apply_replacements m (l ++ old ++ r) =
  apply_replacements m l ++ new ++ apply_replacements m r.
Proof.
  intros Hok H. destruct (In_nth _ _ ([], []) H) as [i [Hi E]].
  assert (E' : entry_at m i = (old, new)) by exact E.
  pose proof (apply_fragment m Hok i l r Hi) as F.
  rewrite E' in F. exact F.
Qed.

Lemma loop_replaces_entry_in_place_witness :
  apply_replacements sample_table
    (py "try { " ++ fst (entry_at sample_table 0) ++ py " }") =
  apply_replacements sample_table (py "try { ") ++
  py "this.log('[OK] Test framework initialized successfully');" ++
  apply_replacements sample_table (py " }").
Proof.
  exact (loop_replaces_entry_in_place sample_table _ _ (py "try { ") (py " }")
           eq_refl (or_introl eq_refl)).
Defined.

Lemma skipn_head (k : text) (d : nat) :
  (d < length k)%nat -> exists x rest, skipn d k = x :: rest /\ In x k.
Proof.
  revert d. induction k as [|c k IH]; intros d Hd; [simpl in Hd; lia|].
  destruct d as [|d].
  - exists c, k. split; [reflexivity | left; reflexivity].
  - destruct (IH d) as [x [rest [E Hx]]]; [simpl in Hd; lia|].
    exists x, rest. split; [exact E | right; exact Hx].
Qed.

(** A key that does not hold the character [c] cannot touch the text made
    of [c] alone. *)
Lemma clash_single (k : text) (c : char) :
  existsb (N.eqb c) k = false -> clash k [c] = false.
Proof.
  intros H. unfold clash. cbn [length Nat.sub seq existsb].
  rewrite orb_false_r.
  destruct (existsb (fun d => agree (skipn d k) [c]) (seq 0 (length k)))
    eqn:E; [|reflexivity].
  apply existsb_exists in E as [d [Hd A]]. apply in_seq in Hd.
  destruct (skipn_head k d ltac:(lia)) as [x [rest [Es Hx]]].
  rewrite Es in A. cbn [agree] in A. apply andb_true_iff in A as [A _].
  apply N.eqb_eq in A. subst x.
  assert (X : existsb (N.eqb c) k = true).
  { apply existsb_exists. exists c. split; [exact Hx | apply N.eqb_refl]. }
  congruence.
Qed.

(** X3.  When no key is empty or holds a line feed, the loop works line by
    line: applied to lines joined by line feeds it gives its results on the
    lines, joined by line feeds, so lines are neither joined nor split and a
    change on one line never depends on another line. *)
Theorem loop_line_by_line (m : list (text * text)) (lines : list text) :
  forallb (fun e => negb (length (fst e) =? 0)%nat &&
                    negb (existsb (N.eqb newline) (fst e))) m = true ->
  apply_replacements m (join [newline] lines) =
  join [newline] (map (apply_replacements m) lines).
Proof.
  intros H.
  assert (B : forall x, In x m ->
              fst x <> [] /\ clash (fst x) [newline] = false).
  { intros x Hx. rewrite forallb_forall in H. specialize (H x Hx).
    cbv beta in H. apply andb_true_iff in H as [H1 H2]. split.
    - intros E. destruct x as [k n]. cbn [fst] in *. subst k. discriminate H1.
    - apply clash_single. apply negb_true_iff. exact H2. }
  induction lines as [|p lines IH]; [ | destruct lines as [|q lines]].
  - change (apply_replacements m [] = []). clear H.
    induction m as [|e m IH]; [reflexivity|].
    rewrite apply_cons.
    destruct (B e (or_introl eq_refl)) as [Hne _].
    rewrite (replace_absent _ _ Hne []).
    + apply IH. intros x Hx. apply B. right. exact Hx.
    + destruct (fst e); [congruence | reflexivity].
  - reflexivity.
  - change (join [newline] (p :: q :: lines))
      with (p ++ [newline] ++ join [newline] (q :: lines)).
    rewrite (apply_barrier m [newline] p _ B), IH. reflexivity.
Qed.

Lemma loop_line_by_line_witness :
  apply_replacements sample_table
    (join [newline] [py "a();"; fst (entry_at sample_table 1); py "b();"]) =
  join [newline]
    (map (apply_replacements sample_table)
       [py "a();"; fst (entry_at sample_table 1); py "b();"]).
Proof.
  exact (loop_line_by_line sample_table _ eq_refl).
Defined.

(** X4.  The loop adds nothing but characters of the replacement texts:
    every character of the output is a character of the input or of the
    [new] of some entry. *)
Theorem loop_adds_only_replacement_chars
    (m : list (text * text)) (t : text) (c : char) :
  In c (apply_replacements m t) ->
  In c t \/ exists e, In e m /\ In c (snd e).
Proof.
  intros H.
  set (P := fun x : char =>
         existsb (N.eqb x) t ||
         existsb (fun e : text * text => existsb (N.eqb x) (snd e)) m).
  assert (A : forallb P (apply_replacements m t) = true).
  { apply forallb_apply.
    - apply forallb_forall. intros e He. apply forallb_forall. intros x Hx.
      unfold P. apply orb_true_iff. right. apply existsb_exists.
      exists e. split; [exact He|]. apply existsb_exists.
      exists x. split; [exact Hx | apply N.eqb_refl].
    - apply forallb_forall. intros x Hx. unfold P.
      apply orb_true_iff. left. apply existsb_exists.
      exists x. split; [exact Hx | apply N.eqb_refl]. }
  rewrite forallb_forall in A. specialize (A c H). unfold P in A.
  apply orb_true_iff in A as [A | A].
  - left. apply existsb_exists in A as [x [Hx E]].
    apply N.eqb_eq in E. subst x. exact Hx.
  - right. apply existsb_exists in A as [e [He A]]. exists e. split; [exact He|].
    apply existsb_exists in A as [x [Hx E]].
    apply N.eqb_eq in E. subst x. exact Hx.
Qed.

Lemma loop_adds_only_replacement_chars_witness :
  In 91 (py "x" ++ fst (entry_at sample_table 0)) \/
  exists e, In e sample_table /\ In 91 (snd e).
Proof.
  apply (loop_adds_only_replacement_chars sample_table
           (py "x" ++ fst (entry_at sample_table 0)) 91).
  vm_compute. do 11 right. left. reflexivity.
Defined.

(** X5.  For a table whose entries do not interfere the order of the
    entries does not matter: applying them in any other order gives the same
    text.  (In general the order matters, see [order_sensitive].) *)
Theorem loop_order_independent (m m' : list (text * text)) (t : text) :
  table_ok m = true -> Permutation m m' ->
  apply_replacements m' t = apply_replacements m t.
Proof.
  intros Hok P.
  pose proof (table_ok_perm _ _ Hok P) as Hok'.
  destruct (layout_exists m Hok t) as [c0 [rest [E [H1 [H2 H3]]]]].
  set (rest' := map (fun p : nat * text => (entry_at m (fst p), snd p)) rest).
  assert (Eb : t = c0 ++ flat_map (fun p => fst (fst p) ++ snd p) rest').
  { rewrite E. unfold before, rest'. f_equal.
    clear. induction rest as [|p rest IH]; [reflexivity|].
    simpl. rewrite IH. reflexivity. }
  assert (In1 : Forall (fun p => In (fst p) m) rest').
  { apply Forall_forall. intros p Hp. unfold rest' in Hp.
    apply in_map_iff in Hp as [q [<- Hq]].
    change (In (entry_at m (fst q)) m).
    apply nth_In. exact (proj1 (Forall_forall _ _) H1 q Hq). }
  assert (Cl : Forall (fun p => clean m (snd p) = true) rest').
  { apply Forall_forall. intros p Hp. unfold rest' in Hp.
    apply in_map_iff in Hp as [q [<- Hq]].
    change (clean m (snd q) = true).
    exact (proj1 (Forall_forall _ _) H3 q Hq). }
  assert (Tr : forall c, clean m c = true -> clean m' c = true).
  { intros c Hc. apply clean_spec. intros e He.
    apply (proj1 (clean_spec m c) Hc).
    apply (Permutation_in _ (Permutation_sym P)), He. }
  rewrite Eb.
  rewrite (apply_layout m Hok rest' c0 In1 H2 Cl).
  apply (apply_layout m' Hok' rest' c0).
  - apply Forall_forall. intros p Hp.
    apply (Permutation_in _ P).
    exact (proj1 (Forall_forall _ _) In1 p Hp).
  - apply Tr, H2.
  - apply Forall_forall. intros p Hp. apply Tr.
    exact (proj1 (Forall_forall _ _) Cl p Hp).
Qed.

Lemma loop_order_independent_witness :
  apply_replacements (rev sample_table)
    (py "a " ++ fst (entry_at sample_table 0)) =
  apply_replacements sample_table (py "a " ++ fst (entry_at sample_table 0)).
Proof.
  exact (loop_order_independent sample_table (rev sample_table) _
           eq_refl (Permutation_rev sample_table)).
Defined.

(** X10.  A text made of filler that holds no key and of keys of the table,
    in any number and order, comes out with every key replaced by its
    [new] and every filler as it was; and every text is laid out that
    way. *)
Theorem loop_replaces_keys_only (m : list (text * text)) :
  table_ok m = true ->
  (forall c0 rest,
     forallb (fun p => (fst p <? length m)%nat) rest = true ->
     forallb (clean m) (c0 :: map snd rest) = true ->
     apply_replacements m (before m c0 rest) = after m c0 rest) /\
  (forall t, exists c0 rest,
     t = before m c0 rest /\
     forallb (fun p => (fst p <? length m)%nat) rest = true /\
     forallb (clean m) (c0 :: map snd rest) = true).
Proof.
  intros Hok. split.
  - intros c0 rest Hi Hc. cbn [forallb] in Hc.
    apply andb_true_iff in Hc as [H0 Hr].
    apply (apply_before m Hok); [ | exact H0 | ].
    + apply Forall_forall. intros p Hp. rewrite forallb_forall in Hi.
      apply Nat.ltb_lt, Hi, Hp.
    + apply Forall_forall. intros p Hp. rewrite forallb_forall in Hr.
      apply Hr, in_map, Hp.
  - intros t.
    destruct (layout_exists m Hok t) as [c0 [rest [E [H1 [H2 H3]]]]].
    exists c0, rest. split; [exact E|]. split.
    + apply forallb_forall. intros p Hp. apply Nat.ltb_lt.
      exact (proj1 (Forall_forall _ _) H1 p Hp).
    + cbn [forallb]. rewrite H2. apply forallb_forall. intros c Hc.
      apply in_map_iff in Hc as [p [<- Hp]].
      exact (proj1 (Forall_forall _ _) H3 p Hp).
Qed.

Lemma loop_replaces_keys_only_witness :
  apply_replacements sample_table
    (before sample_table (py "a();") [(1%nat, py " b(); "); (0%nat, py "// end")])
  = after sample_table (py "a();") [(1%nat, py " b(); "); (0%nat, py "// end")].
Proof.
  exact (proj1 (loop_replaces_keys_only sample_table eq_refl) (py "a();")
           [(1%nat, py " b(); "); (0%nat, py "// end")] eq_refl eq_refl).
Defined.

(** X11.  For a table whose entries do not interfere, a second pass of the
    loop changes nothing. *)
Theorem loop_idempotent (m : list (text * text)) (t : text) :
  table_ok m = true ->
  apply_replacements m (apply_replacements m t) = apply_replacements m t.
Proof.
  intros Hok. apply apply_clean. apply (apply_removes m Hok m [] t).
  - reflexivity.
  - intros e [].
Qed.

Lemma loop_idempotent_witness :
  let t := py "x " ++ fst (entry_at sample_table 0) ++ py " y" in
  apply_replacements sample_table (apply_replacements sample_table t) =
  apply_replacements sample_table t.
Proof.
  intros t. exact (loop_idempotent sample_table t eq_refl).
Defined.

(** X12.  For a table whose entries do not interfere, the loop changes a
    text exactly when the text holds a key: the texts it returns unchanged
    are those in which no key occurs. *)
Theorem loop_fixed_points (m : list (text * text)) (t : text) :
  table_ok m = true ->
  (apply_replacements m t = t <-> clean m t = true).
Proof.
  intros Hok. split.
  - intros E. rewrite <- E. apply (apply_removes m Hok m [] t).
    + reflexivity.
    + intros e [].
  - apply apply_clean.
Qed.

Lemma loop_fixed_points_witness :
  clean sample_table (py "console.log('[OK] done');") = true.
Proof.
  exact (proj1 (loop_fixed_points sample_table
                  (py "console.log('[OK] done');") eq_refl) eq_refl).
Defined.
